(** * pyAbakus: the pay-scale model of [src/abakus/model.py]

    A shallow embedding of the module's classes [Stufe], [Entgeltgruppe],
    [Gehalt], [GuS], [Stelle] and [ÖtvKosten], together with the parts of
    Python's [datetime.date], [decimal.Decimal] and [float] they rely on,
    followed by the properties of the step-advancement projection
    [Stelle.am] and of the salary ledger.

    Conventions.
    - Python [int] is [Z]; a [date] is a record of three integers, built
      by the checked constructor [date_new] (Python's [date(y, m, d)]).
    - A call either returns, raises, or (for the fuelled loop only) runs
      out of fuel: type [outcome].  The fuelled loop is shown to need at
      most as many iterations as there are years between the two dates.
    - A finite [Decimal] is sign, coefficient and exponent, as in
      [Decimal.as_tuple]; arithmetic follows the default context
      ([prec = 28], [ROUND_HALF_EVEN], [Emax = 999999], [Emin = -999999],
      traps on [InvalidOperation] and [Overflow]).  NaN and the
      infinities are not modelled.
    - Assertions are enabled (Python's default, [__debug__] is true). *)

From Stdlib Require Import ZArith NArith Lia Bool Ascii String.
From Stdlib Require Import Floats.SpecFloat.
From stdpp Require Import base decidable countable gmap strings pretty.

Local Open Scope Z_scope.

(** ** Enumerations *)

(** [class Stufe(Enum)]: six members with the values 1 to 6. *)
Inductive Stufe : Set := eins | zwei | drei | vier | fünf | sechs.

(** [class Entgeltgruppe(Enum)]. *)
Inductive Entgeltgruppe : Set := E_10 | E_13.

#[global] Instance Stufe_eq_dec : EqDecision Stufe.
Proof. solve_decision. Defined.

#[global] Instance Entgeltgruppe_eq_dec : EqDecision Entgeltgruppe.
Proof. solve_decision. Defined.

(** The [value] attribute of an enumeration member. *)
Definition value (s : Stufe) : Z :=
  match s with
  | eins => 1 | zwei => 2 | drei => 3 | vier => 4 | fünf => 5 | sechs => 6
  end.

Definition gruppe_value (g : Entgeltgruppe) : Z :=
  match g with E_10 => 10 | E_13 => 13 end.

(** ** Decimal numbers and salary records *)

(** A finite [decimal.Decimal]: [(-1)^sign * coefficient * 10^exponent]. *)
Record Decimal : Set := mkDecimal {
  d_sign : bool;      (* true: negative *)
  d_int : N;          (* the coefficient, Python's digit string [_int] *)
  d_exp : Z           (* the exponent [_exp] *)
}.

#[global] Instance Decimal_eq_dec : EqDecision Decimal.
Proof. solve_decision. Defined.

(** [@dataclass(eq=True, frozen=True) class Gehalt]. *)
Record Gehalt : Set := mkGehalt {
  brutto : Decimal;
  sonderzahlung : Decimal
}.

(** [@dataclass(eq=True, frozen=True) class GuS]. *)
Record GuS : Set := mkGuS {
  gruppe : Entgeltgruppe;
  stufe : Stufe
}.

#[global] Instance GuS_eq_dec : EqDecision GuS.
Proof. solve_decision. Defined.

(** [datetime.date]: year, month, day. *)
Record date : Set := mkDate {
  year : Z;
  month : Z;
  day : Z
}.

#[global] Instance date_eq_dec : EqDecision date.
Proof. solve_decision. Defined.

(** [@dataclass(eq=True, frozen=True) class Stelle]. *)
Record Stelle : Set := mkStelle {
  gus : GuS;
  beginn : date
}.

#[global] Instance Stelle_eq_dec : EqDecision Stelle.
Proof. solve_decision. Defined.

(** ** Outcomes of a call *)

(** The exceptions the module can raise.  [AssertionError] carries the
    three values formatted into the message of [mitGehalt]; [KeyError]
    carries the missing dictionary key. *)
Inductive exn : Set :=
| ValueError
| KeyError (key : Z * GuS)
| AssertionError (jahr : Z) (g : GuS) (ist : Gehalt)
| InvalidOperation
| Overflow.

Inductive outcome (A : Type) : Type :=
| Returns (a : A)
| Raises (e : exn)
| OutOfFuel.

Arguments Returns {A} a.
Arguments Raises {A} e.
Arguments OutOfFuel {A}.

#[global] Instance outcome_ret : MRet outcome := fun A a => Returns a.

#[global] Instance outcome_bind : MBind outcome := fun A B f m =>
  match m with
  | Returns a => f a
  | Raises e => Raises e
  | OutOfFuel => OutOfFuel
  end.

(** ** Dates *)

Definition MINYEAR : Z := 1.
Definition MAXYEAR : Z := 9999.

(** [datetime._is_leap]. *)
Definition is_leap (y : Z) : bool :=
  (y mod 4 =? 0) && (negb (y mod 100 =? 0) || (y mod 400 =? 0)).

(** [datetime._days_in_month], for a month in 1..12. *)
Definition days_in_month (y m : Z) : Z :=
  if (m =? 2) && is_leap y then 29
  else if m =? 2 then 28
  else if (m =? 4) || (m =? 6) || (m =? 9) || (m =? 11) then 30
  else 31.

(** The field check of the constructor ([_check_date_fields]). *)
Definition date_fields_ok (y m d : Z) : bool :=
  (MINYEAR <=? y) && (y <=? MAXYEAR) &&
  (1 <=? m) && (m <=? 12) &&
  (1 <=? d) && (d <=? days_in_month y m).

(** [date(y, m, d)]: raises [ValueError] on fields out of range. *)
Definition date_new (y m d : Z) : outcome date :=
  if date_fields_ok y m d then Returns (mkDate y m d) else Raises ValueError.

Definition valid_date (t : date) : Prop :=
  date_fields_ok (year t) (month t) (day t) = true.

(** [a <= b] and [a < b] on dates: the order of the triples. *)
Definition date_le (a b : date) : bool :=
  match year a ?= year b with
  | Lt => true
  | Gt => false
  | Eq => match month a ?= month b with
          | Lt => true
          | Gt => false
          | Eq => day a <=? day b
          end
  end.

Definition date_lt (a b : date) : bool :=
  match year a ?= year b with
  | Lt => true
  | Gt => false
  | Eq => match month a ?= month b with
          | Lt => true
          | Gt => false
          | Eq => day a <? day b
          end
  end.

(** ** [Stufe]: interval, successor, next advancement *)

(** [Stufe.__init__(self, jahre)]: the enumeration passes the member's
    value as the only argument, which becomes the attribute [jahre]. *)
Definition Stufe_init (jahre : Z) : Z := jahre.

Definition jahre (s : Stufe) : Z := Stufe_init (value s).

(** [Stufe(v)]: the member with value [v], or [ValueError]. *)
Definition Stufe_of_value (v : Z) : outcome Stufe :=
  if v =? 1 then Returns eins
  else if v =? 2 then Returns zwei
  else if v =? 3 then Returns drei
  else if v =? 4 then Returns vier
  else if v =? 5 then Returns fünf
  else if v =? 6 then Returns sechs
  else Raises ValueError.

(** [Stufe.nächste]. *)
Definition nächste (self : Stufe) : outcome Stufe :=
  if value self <? value sechs then Stufe_of_value (value self + 1)
  else Returns self.

(** [Stufe.nächsterAufstieg]. *)
Definition nächsterAufstieg (self : Stufe) (letzterAufstieg : date) : outcome date :=
  date_new (year letzterAufstieg + jahre self)
           (month letzterAufstieg)
           (day letzterAufstieg).

(** ** [Stelle.am] *)

(** The [while] loop of [Stelle.am]; one unit of fuel per iteration. *)
Fixpoint am_loop (fuel : nat) (datum : date)
    (neueStufe : Stufe) (neuesSeit nächstesSeit : date) : outcome (Stufe * date) :=
  if date_le nächstesSeit datum then
    match fuel with
    | O => OutOfFuel
    | S fuel' =>
        let neuesSeit := nächstesSeit in
        neueStufe ← nächste neueStufe;
        nächstesSeit ← nächsterAufstieg neueStufe nächstesSeit;
        am_loop fuel' datum neueStufe neuesSeit nächstesSeit
    end
  else Returns (neueStufe, neuesSeit).

(** The body of [Stelle.am] with a bound on the loop iterations. *)
Definition am_fuel (fuel : nat) (self : Stelle) (datum : date) : outcome Stelle :=
  let neueStufe := stufe (gus self) in
  let neuesSeit := beginn self in
  nächstesSeit ← nächsterAufstieg (stufe (gus self)) (beginn self);
  '(neueStufe, neuesSeit) ← am_loop fuel datum neueStufe neuesSeit nächstesSeit;
  Returns (if decide (neueStufe = stufe (gus self)) then self
           else mkStelle (mkGuS (gruppe (gus self)) neueStufe) neuesSeit).

(** Every due date is at least one year after the previous one, so the
    loop runs at most once per year between [beginn] and [datum]. *)
Definition am_bound (self : Stelle) (datum : date) : nat :=
  Z.to_nat (year datum - year (beginn self)).

(** [Stelle.am]. *)
Definition am (self : Stelle) (datum : date) : outcome Stelle :=
  am_fuel (am_bound self datum) self datum.

(** ** Floats *)

(** Python's [float] is IEEE 754 binary64. *)
Definition float_prec : Z := 53.
Definition float_emax : Z := 1024.

(** The literal [1.]. *)
Definition float_1 : spec_float := S754_finite false 4503599627370496 (-52).

(** The literal [0.3]: the binary64 number nearest to 3/10. *)
Definition float_0_3 : spec_float := S754_finite false 5404319552844595 (-54).

Definition float_add (x y : spec_float) : spec_float :=
  SFadd float_prec float_emax x y.

(** The number of trailing zero bits. *)
Fixpoint trailing_zeros (p : positive) : Z :=
  match p with
  | xO p' => 1 + trailing_zeros p'
  | _ => 0
  end.

(** [Decimal(f)] for a float ([Decimal.from_float]): the exact value
    [n / 2^k] of the float, in lowest terms, written as [n * 5^k * 10^-k].
    Infinities and NaN have no finite [Decimal]; they do not occur in
    this module and are mapped to zero here. *)
Definition Decimal_from_float (f : spec_float) : Decimal :=
  match f with
  | S754_zero s => mkDecimal s 0 0
  | S754_finite s m e =>
      if 0 <=? e then mkDecimal s (Z.to_N (Z.pos m * 2 ^ e)) 0
      else
        let t := Z.min (trailing_zeros m) (- e) in
        let n := Z.pos m / 2 ^ t in
        let k := - e - t in
        mkDecimal s (Z.to_N (n * 5 ^ k)) (- k)
  | _ => mkDecimal false 0 0
  end.

(** ** Decimal arithmetic in the default context *)

Definition prec : Z := 28.
Definition Emax : Z := 999999.
Definition Emin : Z := -999999.
Definition Etiny : Z := Emin - prec + 1.
Definition Etop : Z := Emax - prec + 1.

Inductive rounding : Set := ROUND_HALF_UP | ROUND_HALF_EVEN.

(** [len(str(n))]: the number of decimal digits of a coefficient. *)
Fixpoint ndigits_aux (fuel : nat) (n : N) : Z :=
  match fuel with
  | O => 1
  | S fuel' => if (n <? 10)%N then 1 else 1 + ndigits_aux fuel' (n / 10)%N
  end.

Definition ndigits (n : N) : Z := ndigits_aux (N.to_nat (N.size n)) n.

(** [Decimal.adjusted]. *)
Definition adjusted (d : Decimal) : Z := d_exp d + ndigits (d_int d) - 1.

(** The rounding functions [_round_half_up] and [_round_half_even],
    for dropping the last [k] digits of the coefficient [c]: whether the
    kept digits [c / 10^k] are to be incremented.  (When [k] exceeds the
    number of digits Python rounds a stand-in coefficient 1 with no
    digits kept; that never increments, and neither does this.) *)
Definition rounds_up (r : rounding) (c : N) (k : N) : bool :=
  let q := (c / 10 ^ k)%N in
  let rest := (c mod 10 ^ k)%N in
  let half := (5 * 10 ^ (k - 1))%N in
  match r with
  | ROUND_HALF_UP => (half <=? rest)%N
  | ROUND_HALF_EVEN =>
      if (rest =? half)%N && N.even q then false else (half <=? rest)%N
  end.

(** [Decimal._fix]: round to the context's precision. *)
Definition fix_ (self : Decimal) : outcome Decimal :=
  if (d_int self =? 0)%N then
    Returns (mkDecimal (d_sign self) 0 (Z.min (Z.max (d_exp self) Etiny) Emax))
  else
    let exp_min := ndigits (d_int self) + d_exp self - prec in
    if Etop <? exp_min then Raises Overflow
    else
      let exp_min := if exp_min <? Etiny then Etiny else exp_min in
      if d_exp self <? exp_min then
        let k := Z.to_N (exp_min - d_exp self) in
        let coeff := (d_int self / 10 ^ k)%N in
        let '(coeff, exp_min) :=
          if rounds_up ROUND_HALF_EVEN (d_int self) k then
            let coeff := (coeff + 1)%N in
            if prec <? ndigits coeff then ((coeff / 10)%N, exp_min + 1)
            else (coeff, exp_min)
          else (coeff, exp_min) in
        if Etop <? exp_min then Raises Overflow
        else Returns (mkDecimal (d_sign self) coeff exp_min)
      else Returns self.

(** [Decimal.__mul__]. *)
Definition Decimal_mul (self other : Decimal) : outcome Decimal :=
  let resultsign := xorb (d_sign self) (d_sign other) in
  let resultexp := d_exp self + d_exp other in
  fix_ (mkDecimal resultsign (d_int self * d_int other) resultexp).

(** [Decimal._rescale]. *)
Definition rescale (self : Decimal) (exp : Z) (r : rounding) : Decimal :=
  if (d_int self =? 0)%N then mkDecimal (d_sign self) 0 exp
  else if exp <=? d_exp self then
    mkDecimal (d_sign self) (d_int self * 10 ^ Z.to_N (d_exp self - exp)) exp
  else
    let k := Z.to_N (exp - d_exp self) in
    let coeff := (d_int self / 10 ^ k)%N in
    let coeff := if rounds_up r (d_int self) k then (coeff + 1)%N else coeff in
    mkDecimal (d_sign self) coeff exp.

(** [Decimal.quantize]. *)
Definition quantize (self exp : Decimal) (r : rounding) : outcome Decimal :=
  if negb ((Etiny <=? d_exp exp) && (d_exp exp <=? Emax)) then Raises InvalidOperation
  else if (d_int self =? 0)%N then fix_ (mkDecimal (d_sign self) 0 (d_exp exp))
  else
    let self_adjusted := adjusted self in
    if Emax <? self_adjusted then Raises InvalidOperation
    else if prec <? self_adjusted - d_exp exp + 1 then Raises InvalidOperation
    else
      let ans := rescale self (d_exp exp) r in
      if Emax <? adjusted ans then Raises InvalidOperation
      else if prec <? ndigits (d_int ans) then Raises InvalidOperation
      else fix_ ans.

(** [dec], applied to a [Decimal] (for which [Decimal(euros)] is the
    number itself); [Decimal('.01')] is [1 * 10^-2]. *)
Definition dec (euros : Decimal) : outcome Decimal :=
  quantize euros (mkDecimal false 1 (-2)) ROUND_HALF_UP.

(** ** [ÖtvKosten] *)

#[global] Instance Stufe_countable : Countable Stufe.
Proof.
  refine (inj_countable' (fun s => Z.to_pos (value s))
            (fun p => match p with
                      | 1 => eins | 2 => zwei | 3 => drei
                      | 4 => vier | 5 => fünf | _ => sechs
                      end)%positive _).
  intros []; reflexivity.
Defined.

#[global] Instance Entgeltgruppe_countable : Countable Entgeltgruppe.
Proof.
  refine (inj_countable' (fun g => match g with E_10 => false | E_13 => true end)
            (fun b : bool => if b then E_13 else E_10) _).
  intros []; reflexivity.
Defined.

#[global] Instance GuS_countable : Countable GuS.
Proof.
  refine (inj_countable' (fun g => (gruppe g, stufe g))
            (fun x => mkGuS (fst x) (snd x)) _).
  intros []; reflexivity.
Defined.

(** The instance state: the dictionary [gehälter] and [zuschlag]. *)
Record ÖtvKosten : Type := mkÖtvKosten {
  gehälter : gmap (Z * GuS) Gehalt;
  zuschlag : Decimal
}.

(** The class attribute [arbeitgeberKostenZuschlag = 0.3]. *)
Definition arbeitgeberKostenZuschlag : spec_float := float_0_3.

(** [ÖtvKosten.__init__]. *)
Definition ÖtvKosten_init : ÖtvKosten :=
  {| gehälter := ∅;
     zuschlag := Decimal_from_float (float_add float_1 arbeitgeberKostenZuschlag) |}.

(** [ÖtvKosten.mitGehalt]: the outcome and the state after the call. *)
Definition mitGehalt (self : ÖtvKosten) (jahr : Z) (gus : GuS) (gehalt : Gehalt)
  : outcome unit * ÖtvKosten :=
  let key := (jahr, gus) in
  match gehälter self !! key with
  | Some ist => (Raises (AssertionError jahr gus ist), self)
  | None =>
      (Returns tt,
       {| gehälter := <[key := gehalt]> (gehälter self); zuschlag := zuschlag self |})
  end.

(** [ÖtvKosten.summeMonatlich]. *)
Definition summeMonatlich (self : ÖtvKosten) (jahr : Z) (gus : GuS) : outcome Decimal :=
  match gehälter self !! (jahr, gus) with
  | None => Raises (KeyError (jahr, gus))
  | Some gehalt =>
      produkt ← Decimal_mul (brutto gehalt) (zuschlag self);
      dec produkt
  end.

(** [ÖtvKosten.sonderzahlung]. *)
Definition ÖtvKosten_sonderzahlung (self : ÖtvKosten) (jahr : Z) (gus : GuS)
  : outcome Decimal :=
  match gehälter self !! (jahr, gus) with
  | None => Raises (KeyError (jahr, gus))
  | Some gehalt => Returns (sonderzahlung gehalt)
  end.

(** ** [Gehalt.by], [AllGuS], [printAllGuS] *)

(** A float that is a number: zero or finite. *)
Definition float_finite (f : spec_float) : bool :=
  match f with
  | S754_zero _ | S754_finite _ _ _ => true
  | _ => false
  end.

(** [dec], applied to a finite float: [Decimal(euros)] is then
    [Decimal_from_float]. *)
Definition dec_float (euros : spec_float) : outcome Decimal :=
  dec (Decimal_from_float euros).

(** [Gehalt.by], for finite floats; the arguments of the constructor are
    evaluated from left to right. *)
Definition Gehalt_by (b s : spec_float) : outcome Gehalt :=
  brutto ← dec_float b;
  sonderzahlung ← dec_float s;
  Returns (mkGehalt brutto sonderzahlung).

(** The members of the enumerations in definition order, as iteration
    over the class yields them, and their [name] attributes. *)
Definition Stufe_members : list Stufe := [eins; zwei; drei; vier; fünf; sechs].

Definition Entgeltgruppe_members : list Entgeltgruppe := [E_10; E_13].

Definition Stufe_name (s : Stufe) : string :=
  match s with
  | eins => "eins" | zwei => "zwei" | drei => "drei"
  | vier => "vier" | fünf => "fünf" | sechs => "sechs"
  end.

Definition Entgeltgruppe_name (g : Entgeltgruppe) : string :=
  match g with E_10 => "E_10" | E_13 => "E_13" end.

(** The static fields of [class AllGuS], in the order of the class body. *)
Definition AllGuS : list (string * GuS) :=
  [ ("E10_1", mkGuS E_10 eins); ("E10_2", mkGuS E_10 zwei);
    ("E10_3", mkGuS E_10 drei); ("E10_4", mkGuS E_10 vier);
    ("E10_5", mkGuS E_10 fünf); ("E10_6", mkGuS E_10 sechs);
    ("E13_1", mkGuS E_13 eins); ("E13_2", mkGuS E_13 zwei);
    ("E13_3", mkGuS E_13 drei); ("E13_4", mkGuS E_13 vier);
    ("E13_5", mkGuS E_13 fünf); ("E13_6", mkGuS E_13 sechs) ].

(** [s.replace(c, "")] for a one-character [c]. *)
Fixpoint remove_char (c : ascii) (s : string) : string :=
  match s with
  | EmptyString => EmptyString
  | String a s' =>
      if Ascii.eqb a c then remove_char c s' else String a (remove_char c s')
  end.

(** [itertools.product(xs, ys)]. *)
Definition product {A B : Type} (xs : list A) (ys : list B) : list (A * B) :=
  x ← xs; y ← ys; [(x, y)].

(** [printAllGuS]: the lines it prints, in order. *)
Definition printAllGuS : list string :=
  (fun '(e, s) =>
     "    " +:+ remove_char "_" (Entgeltgruppe_name e) +:+ "_" +:+ pretty (value s)
     +:+ " = GuS(Entgeltgruppe." +:+ Entgeltgruppe_name e
     +:+ ", Stufe." +:+ Stufe_name s +:+ ")")
  <$> product Entgeltgruppe_members Stufe_members.

(** ** Vocabulary of the statements *)

(** The successor table that [nächste] computes. *)
Definition Stufe_succ (s : Stufe) : Stufe :=
  match s with
  | eins => zwei | zwei => drei | drei => vier
  | vier => fünf | fünf => sechs | sechs => sechs
  end.

(** A date other than 29 February. *)
Definition not_feb29 (t : date) : Prop := ~ (month t = 2 /\ day t = 29).

(** Steps reachable by repeated calls of [nächste]. *)
Inductive erreichbar : Stufe -> Stufe -> Prop :=
| erreichbar_null s : erreichbar s s
| erreichbar_nächste s s' s'' :
    erreichbar s s' -> nächste s' = Returns s'' -> erreichbar s s''.

(** The coefficient of [zuschlag]:
    [13 * 10^51 + 444089209850062616169452667236328125]. *)
Definition zuschlag_int : N := 13000000000000000444089209850062616169452667236328125.

(** The factor the surcharge of 30 percent stands for, [Decimal('1.30')]. *)
Definition zuschlag_exakt : Decimal := mkDecimal false 130 (-2).

(** [summeMonatlich] with the exact factor 1.30 in place of [zuschlag]:
    the gross amount times 1.30, rounded half-up to two places. *)
Definition summeMonatlich_exakt (self : ÖtvKosten) (jahr : Z) (gus : GuS)
  : outcome Decimal :=
  match gehälter self !! (jahr, gus) with
  | None => Raises (KeyError (jahr, gus))
  | Some gehalt =>
      produkt ← Decimal_mul (brutto gehalt) zuschlag_exakt;
      dec produkt
  end.

(** Whole years from [a] to [b]: the number of anniversaries of [a] that
    are not later than [b]. *)
Definition volle_jahre (a b : date) : Z :=
  year b - year a
  - (if date_lt (mkDate (year a) (month b) (day b)) a then 1 else 0).

(** The years it takes from step [eins] to reach a step: the sum of the
    intervals of the steps below it. *)
Definition jahre_bis (s : Stufe) : Z :=
  match s with
  | eins => 0
  | zwei => jahre eins
  | drei => jahre eins + jahre zwei
  | vier => jahre eins + jahre zwei + jahre drei
  | fünf => jahre eins + jahre zwei + jahre drei + jahre vier
  | sechs => jahre eins + jahre zwei + jahre drei + jahre vier + jahre fünf
  end.

(** Ledger states that arise from a state by calls of [mitGehalt],
    returning or raising. *)
Inductive später : ÖtvKosten -> ÖtvKosten -> Prop :=
| später_null self : später self self
| später_mitGehalt self self' jahr gus gehalt :
    später self self' ->
    später self (snd (mitGehalt self' jahr gus gehalt)).

(** The text of the declaration of a static field of [AllGuS]. *)
Definition AllGuS_zeile (feld : string * GuS) : string :=
  "    " +:+ fst feld +:+ " = GuS(Entgeltgruppe."
  +:+ Entgeltgruppe_name (gruppe (snd feld))
  +:+ ", Stufe." +:+ Stufe_name (stufe (snd feld)) +:+ ")".

(** A float rounded to cents: the decimal has two places and the sign of
    the float, and is within half a cent of the float's value [m * 2^e]. *)
Definition auf_cent_gerundet (f : spec_float) (d : Decimal) : Prop :=
  match f with
  | S754_zero s => d = mkDecimal s 0 (-2)
  | S754_finite s m e =>
      d_exp d = -2 /\ d_sign d = s /\
      Z.abs (2 * Z.of_N (d_int d) * 2 ^ Z.max 0 (- e) - 200 * (Z.pos m * 2 ^ Z.max 0 e))
        <= 2 ^ Z.max 0 (- e)
  | _ => False
  end.

(** * Properties *)

Ltac unfold_bind := unfold mbind, outcome_bind, mret, outcome_ret in *.

(** ** The order on dates *)

Section DateOrder.

Lemma date_le_spec a b :
  date_le a b = true <->
  year a < year b \/
  (year a = year b /\ (month a < month b \/ (month a = month b /\ day a <= day b))).
Proof.
  unfold date_le.
  destruct (Z.compare_spec (year a) (year b));
    destruct (Z.compare_spec (month a) (month b));
    rewrite ?Z.leb_le; split; intros; try lia; try discriminate; auto.
Qed.

Lemma date_lt_spec a b :
  date_lt a b = true <->
  year a < year b \/
  (year a = year b /\ (month a < month b \/ (month a = month b /\ day a < day b))).
Proof.
  unfold date_lt.
  destruct (Z.compare_spec (year a) (year b));
    destruct (Z.compare_spec (month a) (month b));
    rewrite ?Z.ltb_lt; split; intros; try lia; try discriminate; auto.
Qed.

Lemma date_le_refl a : date_le a a = true.
Proof. apply date_le_spec. lia. Qed.

Lemma date_le_trans a b c :
  date_le a b = true -> date_le b c = true -> date_le a c = true.
Proof. rewrite !date_le_spec. lia. Qed.

Lemma date_lt_le a b : date_lt a b = true -> date_le a b = true.
Proof. rewrite date_lt_spec, date_le_spec. lia. Qed.

Lemma date_lt_le_trans a b c :
  date_lt a b = true -> date_le b c = true -> date_lt a c = true.
Proof. rewrite !date_lt_spec, date_le_spec. lia. Qed.

Lemma date_le_lt_trans a b c :
  date_le a b = true -> date_lt b c = true -> date_lt a c = true.
Proof. rewrite !date_lt_spec, date_le_spec. lia. Qed.

Lemma date_le_false a b : date_le a b = false <-> date_lt b a = true.
Proof.
  rewrite date_lt_spec. split.
  - intros H. destruct (date_le a b) eqn:E; [discriminate|].
    assert (N : ~ (date_le a b = true)) by congruence.
    rewrite date_le_spec in N. lia.
  - intros H. destruct (date_le a b) eqn:E; [|reflexivity].
    apply date_le_spec in E. lia.
Qed.

Lemma date_le_year a b : date_le a b = true -> year a <= year b.
Proof. rewrite date_le_spec. lia. Qed.

End DateOrder.

(** ** The step catalogue *)

Lemma nächste_succ s : nächste s = Returns (Stufe_succ s).
Proof. destruct s; reflexivity. Qed.

Lemma value_succ s : value (Stufe_succ s) = Z.min (value s + 1) 6.
Proof. destruct s; reflexivity. Qed.

Lemma value_range s : 1 <= value s <= 6.
Proof. destruct s; simpl; lia. Qed.

Lemma value_inj s s' : value s = value s' -> s = s'.
Proof. destruct s, s'; simpl; intros; congruence || lia. Qed.

Lemma jahre_range s : 1 <= jahre s <= 6.
Proof. apply value_range. Qed.

Lemma date_new_Returns y m d t :
  date_new y m d = Returns t ->
  t = mkDate y m d /\ date_fields_ok y m d = true.
Proof.
  unfold date_new. destruct (date_fields_ok y m d); intros H; inversion H; auto.
Qed.

Lemma date_new_ok y m d :
  date_fields_ok y m d = true -> date_new y m d = Returns (mkDate y m d).
Proof. unfold date_new. intros ->. reflexivity. Qed.

Lemma date_new_cases y m d :
  date_new y m d = Returns (mkDate y m d) \/ date_new y m d = Raises ValueError.
Proof. unfold date_new. destruct (date_fields_ok y m d); auto. Qed.

Lemma nächsterAufstieg_Returns s t t' :
  nächsterAufstieg s t = Returns t' ->
  t' = mkDate (year t + jahre s) (month t) (day t) /\
  valid_date t' /\ date_lt t t' = true.
Proof.
  unfold nächsterAufstieg. intros H.
  apply date_new_Returns in H as [-> Hok].
  repeat split; [exact Hok|].
  apply date_lt_spec. simpl. pose proof (jahre_range s). lia.
Qed.

Lemma nächsterAufstieg_cases s t :
  nächsterAufstieg s t = Returns (mkDate (year t + jahre s) (month t) (day t)) \/
  nächsterAufstieg s t = Raises ValueError.
Proof. apply date_new_cases. Qed.

(** ** The advancement loop *)

Section Loop.

Variable datum : date.

Lemma am_loop_exit fuel s t ns :
  date_le ns datum = false -> am_loop fuel datum s t ns = Returns (s, t).
Proof. intros H. destruct fuel; simpl; rewrite H; reflexivity. Qed.

Lemma am_loop_step fuel s t ns :
  date_le ns datum = true ->
  am_loop (S fuel) datum s t ns =
    (ns' ← nächsterAufstieg (Stufe_succ s) ns;
     am_loop fuel datum (Stufe_succ s) ns ns').
Proof. intros H. simpl. rewrite H, nächste_succ. reflexivity. Qed.

(** More fuel does not change the outcome of a run that had enough. *)
Lemma am_loop_fuel_mono n : forall m s t ns,
  (n <= m)%nat ->
  am_loop n datum s t ns <> OutOfFuel ->
  am_loop m datum s t ns = am_loop n datum s t ns.
Proof.
  induction n as [|n IH]; intros m s t ns Hle Hne.
  - destruct (date_le ns datum) eqn:E.
    + simpl in Hne. rewrite E in Hne. congruence.
    + rewrite !am_loop_exit by assumption. reflexivity.
  - destruct m as [|m]; [lia|].
    destruct (date_le ns datum) eqn:E.
    + rewrite !am_loop_step by assumption.
      rewrite am_loop_step in Hne by assumption.
      destruct (nächsterAufstieg (Stufe_succ s) ns) as [ns'| |]; unfold_bind;
        try reflexivity.
      apply IH; [lia|assumption].
    + rewrite !am_loop_exit by assumption. reflexivity.
Qed.

(** The years left until [datum] bound the number of iterations. *)
Lemma am_loop_enough_fuel fuel : forall s t ns,
  year datum - year ns < Z.of_nat fuel ->
  am_loop fuel datum s t ns <> OutOfFuel.
Proof.
  induction fuel as [|fuel IH]; intros s t ns Hlt.
  - rewrite am_loop_exit; [discriminate|].
    destruct (date_le ns datum) eqn:E; [|reflexivity].
    apply date_le_year in E. lia.
  - destruct (date_le ns datum) eqn:E.
    + rewrite am_loop_step by assumption.
      destruct (nächsterAufstieg_cases (Stufe_succ s) ns) as [-> | ->];
        unfold_bind; [|discriminate].
      apply IH. simpl. pose proof (jahre_range (Stufe_succ s)). lia.
    + rewrite am_loop_exit by assumption. discriminate.
Qed.

(** What a returning run of the loop establishes, started in a state
    where [ns] is the due date computed from [s] and [t]. *)
Lemma am_loop_post fuel : forall s t ns s' t',
  nächsterAufstieg s t = Returns ns ->
  am_loop fuel datum s t ns = Returns (s', t') ->
  (exists k : nat, s' = Nat.iter k Stufe_succ s) /\
  ((s' = s /\ t' = t /\ date_le ns datum = false) \/
   (date_le ns t' = true /\ date_le t' datum = true)) /\
  (exists ns', nächsterAufstieg s' t' = Returns ns' /\ date_le ns' datum = false).
Proof.
  induction fuel as [|fuel IH]; intros s t ns s' t' Hinv Hrun.
  - simpl in Hrun. destruct (date_le ns datum) eqn:E; [discriminate|].
    inversion Hrun; subst. split; [exists 0%nat; reflexivity|]. split; eauto.
  - destruct (date_le ns datum) eqn:E.
    + rewrite am_loop_step in Hrun by assumption.
      destruct (nächsterAufstieg (Stufe_succ s) ns) as [ns'| |] eqn:Hns;
        unfold_bind; try discriminate.
      destruct (IH _ _ _ _ _ Hns Hrun) as ((k & Hk) & Hd & Hex).
      split; [exists (S k); rewrite Nat.iter_succ_r; exact Hk|].
      split; [right|exact Hex].
      destruct Hd as [(-> & -> & _) | (H1 & H2)].
      * split; [apply date_le_refl|exact E].
      * split; [|exact H2].
        apply nächsterAufstieg_Returns in Hns as (_ & _ & Hlt).
        eapply date_le_trans; [apply date_lt_le; exact Hlt|exact H1].
    + rewrite am_loop_exit in Hrun by assumption.
      inversion Hrun; subst. split; [exists 0%nat; reflexivity|]. split; eauto.
Qed.

End Loop.

Lemma iter_succ_value k : forall s,
  value s <= value (Nat.iter k Stufe_succ s) <= 6.
Proof.
  induction k as [|k IH]; intros s; simpl.
  - pose proof (value_range s). lia.
  - specialize (IH s). rewrite value_succ. lia.
Qed.

Lemma iter_succ_sechs k : Nat.iter k Stufe_succ sechs = sechs.
Proof. induction k as [|k IH]; simpl; [|rewrite IH]; reflexivity. Qed.

(** ** [am]: fuel, decomposition *)

Lemma am_fuel_enough p d fuel :
  (am_bound p d <= fuel)%nat ->
  am_fuel fuel p d = am p d /\ am_fuel fuel p d <> OutOfFuel.
Proof.
  intros Hle. unfold am, am_fuel.
  destruct (nächsterAufstieg_cases (stufe (gus p)) (beginn p)) as [-> | ->];
    unfold_bind; [|split; [reflexivity|discriminate]].
  set (ns := mkDate _ _ _).
  assert (Hb : am_loop (am_bound p d) d (stufe (gus p)) (beginn p) ns <> OutOfFuel).
  { apply am_loop_enough_fuel. unfold am_bound, ns. simpl.
    pose proof (jahre_range (stufe (gus p))). lia. }
  rewrite (am_loop_fuel_mono d (am_bound p d) fuel) by assumption.
  split; [reflexivity|].
  destruct (am_loop (am_bound p d) d (stufe (gus p)) (beginn p) ns) as [[s' t']| |];
    congruence.
Qed.

Lemma am_terminates p d : am p d <> OutOfFuel.
Proof.
  destruct (am_fuel_enough p d (am_bound p d)) as [E N]; [lia|].
  rewrite <- E. exact N.
Qed.

(** A returning projection, taken apart. *)
Lemma am_Returns p d r :
  am p d = Returns r ->
  exists ns s' t',
    nächsterAufstieg (stufe (gus p)) (beginn p) = Returns ns /\
    (forall fuel, (am_bound p d <= fuel)%nat ->
       am_loop fuel d (stufe (gus p)) (beginn p) ns = Returns (s', t')) /\
    r = (if decide (s' = stufe (gus p)) then p
         else mkStelle (mkGuS (gruppe (gus p)) s') t').
Proof.
  unfold am, am_fuel. intros H.
  destruct (nächsterAufstieg (stufe (gus p)) (beginn p)) as [ns| |] eqn:Hns;
    unfold_bind; try discriminate.
  destruct (am_loop (am_bound p d) d (stufe (gus p)) (beginn p) ns)
    as [[s' t']| |] eqn:Hl; try discriminate.
  exists ns, s', t'. split; [reflexivity|]. split; [|inversion H; reflexivity].
  intros fuel Hle.
  rewrite (am_loop_fuel_mono d (am_bound p d) fuel);
    [exact Hl | exact Hle | rewrite Hl; discriminate].
Qed.

(** The converse: a returning loop gives the projection. *)
Lemma am_of_loop p d fuel ns s' t' :
  nächsterAufstieg (stufe (gus p)) (beginn p) = Returns ns ->
  am_loop fuel d (stufe (gus p)) (beginn p) ns = Returns (s', t') ->
  am p d = Returns (if decide (s' = stufe (gus p)) then p
                    else mkStelle (mkGuS (gruppe (gus p)) s') t').
Proof.
  intros Hns Hl.
  destruct (am_fuel_enough p d (Nat.max fuel (am_bound p d))) as [E _]; [lia|].
  rewrite <- E. unfold am_fuel. rewrite Hns. unfold_bind.
  rewrite (am_loop_fuel_mono d fuel (Nat.max fuel (am_bound p d)));
    [rewrite Hl; reflexivity | lia | rewrite Hl; discriminate].
Qed.

(** A projection that starts before the first due date changes nothing. *)
Lemma am_before_due p d due :
  nächsterAufstieg (stufe (gus p)) (beginn p) = Returns due ->
  date_lt d due = true ->
  am p d = Returns p.
Proof.
  intros Hdue Hlt.
  rewrite (am_of_loop p d 0 due (stufe (gus p)) (beginn p) Hdue).
  - destruct (decide (stufe (gus p) = stufe (gus p))); [reflexivity|contradiction].
  - apply am_loop_exit. apply date_le_false. exact Hlt.
Qed.

(** A projection to the first due date itself advances exactly once. *)
Lemma am_at_due p due due2 :
  nächsterAufstieg (stufe (gus p)) (beginn p) = Returns due ->
  nächsterAufstieg (Stufe_succ (stufe (gus p))) due = Returns due2 ->
  am p due =
    Returns (if decide (Stufe_succ (stufe (gus p)) = stufe (gus p)) then p
             else mkStelle (mkGuS (gruppe (gus p)) (Stufe_succ (stufe (gus p)))) due).
Proof.
  intros Hdue Hdue2.
  apply (am_of_loop p due 1 due); [exact Hdue|].
  rewrite am_loop_step by apply date_le_refl.
  rewrite Hdue2. unfold_bind.
  apply am_loop_exit. apply date_le_false.
  apply nächsterAufstieg_Returns in Hdue2. tauto.
Qed.

Lemma Stufe_succ_fixed s : Stufe_succ s = s <-> s = sechs.
Proof. destruct s; simpl; split; congruence. Qed.

(** ** C1 *)

(** C1: the loop condition is [<=].  A position whose first due date is
    [due] is unchanged by a projection to any earlier date, and a
    projection to [due] itself advances a step below the maximum exactly
    once, with [due] as the new [beginn].  For the step with the 2-year
    interval, [zwei], starting 2020-01-01: projecting to 2021-12-31
    returns the position unchanged, projecting to 2022-01-01 returns step
    [drei] since 2022-01-01. *)
Theorem C1_boundary_is_inclusive :
  (forall p due d,
     nächsterAufstieg (stufe (gus p)) (beginn p) = Returns due ->
     date_lt d due = true ->
     am p d = Returns p) /\
  (forall p due due2,
     stufe (gus p) <> sechs ->
     nächsterAufstieg (stufe (gus p)) (beginn p) = Returns due ->
     nächsterAufstieg (Stufe_succ (stufe (gus p))) due = Returns due2 ->
     am p due =
       Returns (mkStelle (mkGuS (gruppe (gus p)) (Stufe_succ (stufe (gus p)))) due) /\
     value (Stufe_succ (stufe (gus p))) = value (stufe (gus p)) + 1) /\
  jahre zwei = 2 /\
  (forall g,
     am (mkStelle (mkGuS g zwei) (mkDate 2020 1 1)) (mkDate 2021 12 31)
       = Returns (mkStelle (mkGuS g zwei) (mkDate 2020 1 1))) /\
  (forall g,
     am (mkStelle (mkGuS g zwei) (mkDate 2020 1 1)) (mkDate 2022 1 1)
       = Returns (mkStelle (mkGuS g drei) (mkDate 2022 1 1))).
Proof.
  split; [intros p due d H1 H2; exact (am_before_due p d due H1 H2)|].
  split.
  - intros p due due2 Hs H1 H2. split.
    + rewrite (am_at_due p due due2 H1 H2).
      destruct (decide (Stufe_succ (stufe (gus p)) = stufe (gus p))) as [E|E];
        [|reflexivity].
      apply Stufe_succ_fixed in E. contradiction.
    + destruct (stufe (gus p)); try reflexivity. contradiction.
  - split; [reflexivity|]. split; intros []; reflexivity.
Qed.

Lemma C1_boundary_is_inclusive_witness :
  am (mkStelle (mkGuS E_13 vier) (mkDate 2019 10 15)) (mkDate 2023 10 14)
    = Returns (mkStelle (mkGuS E_13 vier) (mkDate 2019 10 15)) /\
  am (mkStelle (mkGuS E_13 vier) (mkDate 2019 10 15)) (mkDate 2023 10 15)
    = Returns (mkStelle (mkGuS E_13 fünf) (mkDate 2023 10 15)).
Proof.
  destruct C1_boundary_is_inclusive as (Hbefore & Hat & _).
  split.
  - apply (Hbefore (mkStelle (mkGuS E_13 vier) (mkDate 2019 10 15)) (mkDate 2023 10 15));
      reflexivity.
  - apply (Hat (mkStelle (mkGuS E_13 vier) (mkDate 2019 10 15))
               (mkDate 2023 10 15) (mkDate 2028 10 15));
      [discriminate | reflexivity | reflexivity].
Defined.

(** ** C8 *)

Lemma date_fields_ok_year y y' m d :
  date_fields_ok y m d = true ->
  ~ (m = 2 /\ d = 29) ->
  MINYEAR <= y' <= MAXYEAR ->
  date_fields_ok y' m d = true.
Proof.
  unfold date_fields_ok, days_in_month, MINYEAR, MAXYEAR.
  intros H Hn Hy.
  repeat (apply andb_prop in H as [H ?]).
  repeat (apply andb_true_intro; split); try assumption; try lia.
  apply Z.leb_le. apply Z.leb_le in H0.
  destruct (m =? 2) eqn:Em; simpl in *.
  - apply Z.eqb_eq in Em.
    destruct (is_leap y), (is_leap y'); lia.
  - exact H0.
Qed.

(** When no date leaves the calendar the loop returns. *)
Lemma am_loop_Returns_in_range datum fuel : forall s t ns,
  valid_date ns -> not_feb29 ns ->
  year datum + 6 <= MAXYEAR ->
  year datum - year ns < Z.of_nat fuel ->
  exists r, am_loop fuel datum s t ns = Returns r.
Proof.
  induction fuel as [|fuel IH]; intros s t ns Hv Hn Hmax Hlt.
  - exists (s, t). apply am_loop_exit.
    destruct (date_le ns datum) eqn:E; [|reflexivity].
    apply date_le_year in E. lia.
  - destruct (date_le ns datum) eqn:E.
    + rewrite am_loop_step by assumption.
      pose proof (jahre_range (Stufe_succ s)) as Hj.
      pose proof (date_le_year _ _ E) as Hy.
      assert (Hok : date_fields_ok (year ns + jahre (Stufe_succ s)) (month ns) (day ns) = true).
      { apply (date_fields_ok_year (year ns)); [exact Hv|exact Hn|].
        unfold valid_date, date_fields_ok in Hv.
        repeat (apply andb_prop in Hv as [Hv ?]).
        apply Z.leb_le in Hv. unfold MINYEAR, MAXYEAR in *. lia. }
      unfold nächsterAufstieg. rewrite (date_new_ok _ _ _ Hok). unfold_bind.
      apply IH; simpl; try assumption. lia.
    + exists (s, t). apply am_loop_exit. exact E.
Qed.

Lemma am_Returns_in_range p d :
  valid_date (beginn p) -> not_feb29 (beginn p) ->
  year (beginn p) + 6 <= MAXYEAR ->
  year d + 6 <= MAXYEAR ->
  exists r, am p d = Returns r.
Proof.
  intros Hv Hn Hb Hd.
  pose proof (jahre_range (stufe (gus p))) as Hj.
  assert (Hok : date_fields_ok (year (beginn p) + jahre (stufe (gus p)))
                  (month (beginn p)) (day (beginn p)) = true).
  { apply (date_fields_ok_year (year (beginn p))); [exact Hv|exact Hn|].
    unfold valid_date, date_fields_ok in Hv.
    repeat (apply andb_prop in Hv as [Hv ?]).
    apply Z.leb_le in Hv. unfold MINYEAR, MAXYEAR in *. lia. }
  destruct (am_loop_Returns_in_range d (am_bound p d) (stufe (gus p)) (beginn p)
              (mkDate (year (beginn p) + jahre (stufe (gus p)))
                      (month (beginn p)) (day (beginn p))))
    as [[s' t'] Hr]; try assumption.
  - unfold am_bound. simpl. lia.
  - eexists. eapply am_of_loop; [|exact Hr].
    unfold nächsterAufstieg. apply date_new_ok. exact Hok.
Qed.

(** C8: the loop of [am] terminates.  Every step's interval is at least
    one year, so every due date is strictly later than the one before;
    the loop therefore runs at most once per year between [beginn] and
    the target, at the maximum step as below it: with that much fuel or
    more the projection returns or raises [ValueError], and never runs
    out of fuel.  Where the date arithmetic stays inside the calendar
    (no 29 February, no year beyond 9999) it returns. *)
Theorem C8_am_terminates :
  (forall s, 1 <= jahre s) /\
  (forall s t t', nächsterAufstieg s t = Returns t' -> date_lt t t' = true) /\
  (forall datum s t ns fuel,
     year datum - year ns < Z.of_nat fuel ->
     am_loop fuel datum s t ns <> OutOfFuel) /\
  (forall p d fuel,
     (am_bound p d <= fuel)%nat ->
     am_fuel fuel p d = am p d /\
     ((exists r, am p d = Returns r) \/ am p d = Raises ValueError)) /\
  (forall p d,
     valid_date (beginn p) -> not_feb29 (beginn p) ->
     year (beginn p) + 6 <= MAXYEAR -> year d + 6 <= MAXYEAR ->
     exists r, am p d = Returns r).
Proof.
  split; [intros s; apply jahre_range|].
  split; [intros s t t' H; apply nächsterAufstieg_Returns in H; tauto|].
  split; [intros datum s t ns fuel H; apply am_loop_enough_fuel; exact H|].
  split; [|exact am_Returns_in_range].
  intros p d fuel Hle.
  split; [apply am_fuel_enough; exact Hle|].
  pose proof (am_terminates p d) as Hne.
  unfold am, am_fuel in *.
  destruct (nächsterAufstieg_cases (stufe (gus p)) (beginn p)) as [E | E];
    rewrite E in *; unfold_bind; [|right; reflexivity].
  set (ns := mkDate _ _ _) in *.
  assert (Hraise : forall fuel s t ns,
            (exists r, am_loop fuel d s t ns = Returns r) \/
            am_loop fuel d s t ns = Raises ValueError \/
            am_loop fuel d s t ns = OutOfFuel).
  { clear. induction fuel as [|fuel IH]; intros s t ns.
    - simpl. destruct (date_le ns d); eauto.
    - destruct (date_le ns d) eqn:E.
      + rewrite am_loop_step by assumption.
        destruct (nächsterAufstieg_cases (Stufe_succ s) ns) as [-> | ->];
          unfold_bind; [apply IH|auto].
      + rewrite am_loop_exit by assumption. eauto. }
  destruct (Hraise (am_bound p d) (stufe (gus p)) (beginn p) ns)
    as [[[s' t'] Hr] | [Hr | Hr]]; rewrite Hr in *.
  - left. eexists. reflexivity.
  - right. reflexivity.
  - congruence.
Qed.

Lemma C8_am_terminates_witness :
  am_fuel 5000 (mkStelle (mkGuS E_10 sechs) (mkDate 2001 3 1)) (mkDate 2030 6 30)
    = am (mkStelle (mkGuS E_10 sechs) (mkDate 2001 3 1)) (mkDate 2030 6 30) /\
  exists r, am (mkStelle (mkGuS E_10 sechs) (mkDate 2001 3 1)) (mkDate 2030 6 30) = Returns r.
Proof.
  destruct C8_am_terminates as (_ & _ & _ & Hfuel & Hrange).
  split.
  - apply (Hfuel (mkStelle (mkGuS E_10 sechs) (mkDate 2001 3 1)) (mkDate 2030 6 30) 5000%nat).
    unfold am_bound. simpl. lia.
  - apply (Hrange (mkStelle (mkGuS E_10 sechs) (mkDate 2001 3 1)) (mkDate 2030 6 30)).
    + reflexivity.
    + unfold not_feb29. simpl. lia.
    + simpl. unfold MAXYEAR. lia.
    + simpl. unfold MAXYEAR. lia.
Defined.

(** ** C2 *)

Lemma am_result_stufe p s' t' :
  stufe (gus (if decide (s' = stufe (gus p)) then p
              else mkStelle (mkGuS (gruppe (gus p)) s') t')) = s'.
Proof. destruct (decide (s' = stufe (gus p))) as [->|]; reflexivity. Qed.






(** ** C3 *)

Lemma am_loop_steps datum fuel : forall s t ns s' t',
  am_loop fuel datum s t ns = Returns (s', t') ->
  exists k : nat, s' = Nat.iter k Stufe_succ s.
Proof.
  induction fuel as [|fuel IH]; intros s t ns s' t' Hrun.
  - simpl in Hrun. destruct (date_le ns datum); [discriminate|].
    inversion Hrun; subst. exists 0%nat. reflexivity.
  - destruct (date_le ns datum) eqn:E.
    + rewrite am_loop_step in Hrun by assumption.
      destruct (nächsterAufstieg (Stufe_succ s) ns) as [ns'| |];
        unfold_bind; try discriminate.
      destruct (IH _ _ _ _ _ Hrun) as (k & Hk).
      exists (S k). rewrite Nat.iter_succ_r. exact Hk.
    + rewrite am_loop_exit in Hrun by assumption.
      inversion Hrun; subst. exists 0%nat. reflexivity.
Qed.

(** The run to an earlier target is a prefix of the run to a later one. *)
Lemma am_loop_mono_datum d1 d2 fuel : forall s t ns s2 t2,
  date_le d1 d2 = true ->
  am_loop fuel d2 s t ns = Returns (s2, t2) ->
  exists s1 t1,
    am_loop fuel d1 s t ns = Returns (s1, t1) /\ value s1 <= value s2.
Proof.
  induction fuel as [|fuel IH]; intros s t ns s2 t2 Hd Hrun.
  - simpl in Hrun. destruct (date_le ns d2) eqn:E2; [discriminate|].
    inversion Hrun; subst. exists s2, t2. split; [|lia].
    apply am_loop_exit. destruct (date_le ns d1) eqn:E1; [|reflexivity].
    rewrite (date_le_trans _ _ _ E1 Hd) in E2. discriminate.
  - destruct (date_le ns d1) eqn:E1.
    + assert (E2 : date_le ns d2 = true) by (eapply date_le_trans; eassumption).
      rewrite am_loop_step in * by assumption.
      destruct (nächsterAufstieg (Stufe_succ s) ns) as [ns'| |];
        unfold_bind; try discriminate.
      apply (IH _ _ _ _ _ Hd Hrun).
    + exists s, t. split; [apply am_loop_exit; exact E1|].
      apply am_loop_steps in Hrun as (k & ->).
      apply iter_succ_value.
Qed.

(** C3: projection is monotone in the target date.  For [d1 <= d2],
    whenever the projection to [d2] returns, so does the projection to
    [d1], and its step ordinal is at most that of the projection to
    [d2]. *)
Theorem C3_am_monotone p d1 d2 r2 :
  date_le d1 d2 = true ->
  am p d2 = Returns r2 ->
  exists r1, am p d1 = Returns r1 /\
             value (stufe (gus r1)) <= value (stufe (gus r2)).
Proof.
  intros Hd H2.
  apply am_Returns in H2 as (ns & s2 & t2 & Hns & Hl & ->).
  specialize (Hl (Nat.max (am_bound p d1) (am_bound p d2))).
  destruct (am_loop_mono_datum d1 d2 _ _ _ _ _ _ Hd (Hl ltac:(lia)))
    as (s1 & t1 & Hl1 & Hv).
  eexists. split; [exact (am_of_loop p d1 _ ns s1 t1 Hns Hl1)|].
  rewrite !am_result_stufe. exact Hv.
Qed.

Lemma C3_am_monotone_witness :
  exists r1,
    am (mkStelle (mkGuS E_10 eins) (mkDate 2015 7 1)) (mkDate 2017 1 1) = Returns r1 /\
    value (stufe (gus r1))
      <= value (stufe (gus (mkStelle (mkGuS E_10 vier) (mkDate 2021 7 1)))).
Proof.
  apply (C3_am_monotone (mkStelle (mkGuS E_10 eins) (mkDate 2015 7 1))
           (mkDate 2017 1 1) (mkDate 2024 12 31)); reflexivity.
Defined.

(** ** C4 *)

Lemma am_fixed p d r : am p d = Returns r -> am r d = Returns r.
Proof.
  intros H. pose proof H as H0.
  apply am_Returns in H as (ns & s' & t' & Hns & Hl & Hr).
  destruct (decide (s' = stufe (gus p))) as [E|E]; subst r; [exact H0|].
  specialize (Hl _ (Nat.le_refl _)).
  apply am_loop_post in Hl as (_ & _ & (ns' & Hns' & Hexit)); [|exact Hns].
  set (r := mkStelle (mkGuS (gruppe (gus p)) s') t').
  rewrite (am_of_loop r d 0 ns' s' t'); simpl.
  - destruct (decide (s' = s')); [reflexivity|contradiction].
  - exact Hns'.
  - rewrite Hexit. reflexivity.
Qed.

(** C4: projection is idempotent.  Projecting the result of [p.am(d)]
    to [d] again is the same as [p.am(d)]: the same position when the
    first projection returns, the same exception when it raises. *)
Theorem C4_am_idempotent p d :
  (r ← am p d; am r d) = am p d.
Proof.
  destruct (am p d) as [r| |] eqn:H; unfold_bind; try reflexivity.
  exact (am_fixed p d r H).
Qed.

(** ** C5 *)

Lemma erreichbar_iter k : forall s, erreichbar s (Nat.iter k Stufe_succ s).
Proof.
  induction k as [|k IH]; intros s; simpl.
  - constructor.
  - econstructor; [apply IH|apply nächste_succ].
Qed.

(** What a returning projection keeps and what it changes: the grade is
    kept; the step is reached from the original one by repeated
    [nächste]; the [beginn] is not earlier than the original one, and not
    later than the target whenever the original one is not; a changed
    position has a strictly higher step and a strictly later [beginn];
    a target before the original [beginn] returns the position itself. *)
Lemma am_postcondition p d r :
  am p d = Returns r ->
  gruppe (gus r) = gruppe (gus p) /\
  erreichbar (stufe (gus p)) (stufe (gus r)) /\
  value (stufe (gus p)) <= value (stufe (gus r)) <= value sechs /\
  date_le (beginn p) (beginn r) = true /\
  (date_le (beginn p) d = true -> date_le (beginn r) d = true) /\
  (r <> p ->
     value (stufe (gus p)) < value (stufe (gus r)) /\
     date_lt (beginn p) (beginn r) = true /\
     date_le (beginn r) d = true) /\
  (date_lt d (beginn p) = true -> r = p).
Proof.
  intros H. pose proof H as H0.
  apply am_Returns in H as (ns & s' & t' & Hns & Hl & Hr).
  specialize (Hl _ (Nat.le_refl _)).
  apply am_loop_post in Hl as ((k & Hk) & Hd & _); [|exact Hns].
  pose proof (iter_succ_value k (stufe (gus p))) as Hv. rewrite <- Hk in Hv.
  pose proof (nächsterAufstieg_Returns _ _ _ Hns) as (_ & _ & Hlt).
  assert (Hstufe : stufe (gus r) = s') by (rewrite Hr; apply am_result_stufe).
  destruct (decide (s' = stufe (gus p))) as [E|E]; subst r.
  - rewrite E in *.
    split; [reflexivity|].
    split; [constructor|].
    split; [simpl; lia|].
    split; [apply date_le_refl|].
    split; [tauto|].
    split; [intros Hc; contradiction|reflexivity].
  - simpl in *.
    destruct Hd as [(-> & _) | (H1 & H2)]; [contradiction|].
    assert (Hb : date_lt (beginn p) t' = true)
      by (eapply date_lt_le_trans; eassumption).
    assert (Hne : value (stufe (gus p)) <> value s')
      by (intros Hc; apply value_inj in Hc; congruence).
    split; [reflexivity|].
    split; [rewrite Hk; apply erreichbar_iter|].
    split; [simpl; lia|].
    split; [apply date_lt_le; exact Hb|].
    split; [intros _; exact H2|].
    split; [intros _; repeat split; (lia || assumption)|].
    intros Hc. exfalso.
    pose proof (date_lt_le_trans _ _ _ Hb H2) as Hbd.
    rewrite date_lt_spec in Hc, Hbd. lia.
Qed.

(** C5: the postcondition of the projection.  A returning projection
    keeps the grade; its step is reached from the original one by zero or
    more single steps of [nächste], none skipped and the maximum step
    never exceeded, so its ordinal is at least the original one; and its
    [beginn] lies between the original [beginn] and the target date, both
    included, whichever of the two is the earlier.  When the original
    [beginn] is not later than the target, that is: original [beginn] <=
    new [beginn] <= target; for a target before the original [beginn]
    the position itself is returned, whose [beginn] is the later end of
    the span.  A changed position has a strictly higher step and a
    strictly later [beginn], not later than the target. *)
Theorem C5_am_postcondition p d r :
  am p d = Returns r ->
  gruppe (gus r) = gruppe (gus p) /\
  erreichbar (stufe (gus p)) (stufe (gus r)) /\
  value (stufe (gus p)) <= value (stufe (gus r)) <= value sechs /\
  ((date_le (beginn p) (beginn r) = true /\ date_le (beginn r) d = true) \/
   (date_le d (beginn r) = true /\ date_le (beginn r) (beginn p) = true)) /\
  date_le (beginn p) (beginn r) = true /\
  (date_le (beginn p) d = true -> date_le (beginn r) d = true) /\
  (r <> p ->
     value (stufe (gus p)) < value (stufe (gus r)) /\
     date_lt (beginn p) (beginn r) = true /\
     date_le (beginn r) d = true) /\
  (date_lt d (beginn p) = true -> r = p).
Proof.
  intros H.
  destruct (am_postcondition p d r H) as (Hg & He & Hv & Hb & Hd & Hne & Hlt).
  repeat (split; [assumption|]).
  split; [|auto].
  destruct (date_le (beginn p) d) eqn:E.
  - left. split; [exact Hb|exact (Hd eq_refl)].
  - right. apply date_le_false in E. rewrite (Hlt E).
    split; [apply date_lt_le; exact E|apply date_le_refl].
Qed.

Lemma C5_am_postcondition_witness :
  gruppe (gus (mkStelle (mkGuS E_13 fünf) (mkDate 2019 3 15))) = E_13 /\
  erreichbar zwei (stufe (gus (mkStelle (mkGuS E_13 fünf) (mkDate 2019 3 15)))).
Proof.
  destruct (C5_am_postcondition
              (mkStelle (mkGuS E_13 zwei) (mkDate 2010 3 15)) (mkDate 2023 1 1)
              (mkStelle (mkGuS E_13 fünf) (mkDate 2019 3 15)))
    as (Hg & He & _); [reflexivity|].
  split; [exact Hg|exact He].
Defined.

(** ** C9 *)

(** C9, as the code has it: the successor and the interval of every step
    are defined without error, the interval being between one and six
    years.  The next advancement date is the same month and day with the
    year advanced by the interval whenever it is returned; it is returned
    for every valid date other than 29 February whose advanced year is at
    most 9999, and [ValueError] is raised when the advanced year is
    beyond 9999. *)
Theorem C9_payscale_operations s t :
  (exists s', nächste s = Returns s' /\
              value s' = Z.min (value s + 1) (value sechs)) /\
  1 <= jahre s <= 6 /\
  (forall t', nächsterAufstieg s t = Returns t' ->
     year t' = year t + jahre s /\ month t' = month t /\ day t' = day t) /\
  (valid_date t -> not_feb29 t -> year t + jahre s <= MAXYEAR ->
     nächsterAufstieg s t = Returns (mkDate (year t + jahre s) (month t) (day t))) /\
  (MAXYEAR < year t + jahre s -> nächsterAufstieg s t = Raises ValueError).
Proof.
  split; [exists (Stufe_succ s); split; [apply nächste_succ|apply value_succ]|].
  split; [apply jahre_range|].
  split; [|split].
  - intros t' H. apply nächsterAufstieg_Returns in H as (-> & _). auto.
  - intros Hv Hn Hy. unfold nächsterAufstieg. apply date_new_ok.
    apply (date_fields_ok_year (year t)); [exact Hv|exact Hn|].
    unfold valid_date, date_fields_ok in Hv.
    repeat (apply andb_prop in Hv as [Hv ?]).
    apply Z.leb_le in Hv. pose proof (jahre_range s).
    unfold MINYEAR, MAXYEAR in *. lia.
  - intros Hy. unfold nächsterAufstieg, date_new, date_fields_ok.
    replace (year t + jahre s <=? MAXYEAR) with false by (symmetry; apply Z.leb_gt; lia).
    rewrite andb_false_r. reflexivity.
Qed.

Lemma C9_payscale_operations_witness :
  nächsterAufstieg drei (mkDate 2020 5 31) = Returns (mkDate 2023 5 31) /\
  nächsterAufstieg drei (mkDate 9998 5 31) = Raises ValueError.
Proof.
  split.
  - destruct (C9_payscale_operations drei (mkDate 2020 5 31)) as (_ & _ & _ & H & _).
    apply H; [reflexivity | unfold not_feb29; simpl; lia | simpl; unfold MAXYEAR; lia].
  - destruct (C9_payscale_operations drei (mkDate 9998 5 31)) as (_ & _ & _ & _ & H).
    apply H. simpl. unfold MAXYEAR. lia.
Defined.

(** C9 as stated fails: the date constructor raises [ValueError] for
    the last day of the calendar at any step. *)
Lemma C9_counterexample :
  valid_date (mkDate 9999 12 31) /\
  nächsterAufstieg eins (mkDate 9999 12 31) = Raises ValueError /\
  ~ (forall s t, valid_date t -> exists t', nächsterAufstieg s t = Returns t').
Proof.
  split; [reflexivity|]. split; [reflexivity|].
  intros H. destruct (H eins (mkDate 9999 12 31) eq_refl) as [t' Ht'].
  vm_compute in Ht'. discriminate.
Qed.

(** ** C10 *)

(** C10: every step's advancement interval in years is its own ordinal:
    1, 2, 3, 4, 5 and, for the maximum step, 6; at the maximum step the
    successor is the step itself and each further due date is six years
    after the previous one. *)
Theorem C10_intervals :
  jahre eins = 1 /\ jahre zwei = 2 /\ jahre drei = 3 /\
  jahre vier = 4 /\ jahre fünf = 5 /\ jahre sechs = 6 /\
  (forall s, jahre s = value s) /\
  (forall s, value s <= value sechs) /\
  nächste sechs = Returns sechs /\
  (forall t, nächsterAufstieg sechs t = date_new (year t + 6) (month t) (day t)) /\
  (forall datum fuel t ns,
     date_le ns datum = true ->
     am_loop (S fuel) datum sechs t ns =
       (ns' ← date_new (year ns + 6) (month ns) (day ns);
        am_loop fuel datum sechs ns ns')).
Proof.
  repeat split; try reflexivity.
  - intros s. pose proof (value_range s). simpl. lia.
  - intros datum fuel t ns H. rewrite am_loop_step by assumption. reflexivity.
Qed.

(** ** C6 *)

(** The literals: [float_1] is one, and [float_0_3] is the 53-bit
    number within half a unit in the last place of 3/10. *)
Lemma float_literals :
  (exists m, float_1 = S754_finite false m (-52) /\ Z.pos m = 2 ^ 52) /\
  (exists m, float_0_3 = S754_finite false m (-54) /\
             2 ^ 52 <= Z.pos m < 2 ^ 53 /\
             Z.abs (10 * Z.pos m - 3 * 2 ^ 54) <= 5).
Proof.
  split; eexists; (split; [reflexivity|]); [reflexivity|].
  split; [split|]; vm_compute; congruence.
Qed.

(** [Decimal(1. + 0.3)]: the float sum is the binary64 number
    5854679515581645 / 2^52, and its exact decimal expansion has 53
    digits. *)
Lemma zuschlag_init_value :
  float_add float_1 arbeitgeberKostenZuschlag
    = S754_finite false 5854679515581645 (-52) /\
  zuschlag ÖtvKosten_init
    = mkDecimal false 13000000000000000444089209850062616169452667236328125 (-52).
Proof. split; vm_compute; reflexivity. Qed.

(** [mitGehalt] never changes [zuschlag]. *)
Lemma mitGehalt_zuschlag self jahr gus gehalt :
  zuschlag (snd (mitGehalt self jahr gus gehalt)) = zuschlag self.
Proof. unfold mitGehalt. destruct (gehälter self !! (jahr, gus)); reflexivity. Qed.

(** The annual bonus plays no part in the monthly total. *)
Lemma summeMonatlich_brutto self jahr gus gehalt :
  gehälter self !! (jahr, gus) = Some gehalt ->
  summeMonatlich self jahr gus =
    (produkt ← Decimal_mul (brutto gehalt) (zuschlag self); dec produkt).
Proof. unfold summeMonatlich. intros ->. reflexivity. Qed.

(** A stored gross of 3000.00 gives 3900.00. *)
Lemma summeMonatlich_3000 self jahr gus gehalt :
  zuschlag self = zuschlag ÖtvKosten_init ->
  gehälter self !! (jahr, gus) = Some gehalt ->
  brutto gehalt = mkDecimal false 300000 (-2) ->
  summeMonatlich self jahr gus = Returns (mkDecimal false 390000 (-2)).
Proof.
  intros Hz Hg Hb. rewrite (summeMonatlich_brutto _ _ _ _ Hg), Hz, Hb.
  vm_compute. reflexivity.
Qed.

(** *** Digits and rounding *)

Lemma ndigits_aux_spec fuel : forall n,
  (n < 2 ^ N.of_nat fuel)%N -> (0 < n)%N ->
  1 <= ndigits_aux fuel n /\
  (10 ^ Z.to_N (ndigits_aux fuel n - 1) <= n < 10 ^ Z.to_N (ndigits_aux fuel n))%N.
Proof.
  induction fuel as [|fuel IH]; intros n Hn Hpos.
  - simpl in Hn. lia.
  - cbn [ndigits_aux]. destruct (N.ltb_spec n 10) as [H10|H10].
    + split; [lia|]. simpl. lia.
    + assert (Hq : (n / 10 < 2 ^ N.of_nat fuel)%N).
      { rewrite Nat2N.inj_succ, N.pow_succ_r' in Hn.
        apply N.Div0.div_lt_upper_bound. lia. }
      assert (Hq0 : (0 < n / 10)%N).
      { apply N.div_str_pos. lia. }
      destruct (IH _ Hq Hq0) as (H1 & H2 & H3).
      split; [lia|].
      replace (Z.to_N (1 + ndigits_aux fuel (n / 10)%N - 1))
        with (N.succ (Z.to_N (ndigits_aux fuel (n / 10)%N - 1))) by lia.
      replace (Z.to_N (1 + ndigits_aux fuel (n / 10)%N))
        with (N.succ (Z.to_N (ndigits_aux fuel (n / 10)%N))) by lia.
      rewrite !N.pow_succ_r'.
      pose proof (N.Div0.div_mod n 10) as Hdm.
      pose proof (N.mod_lt n 10 ltac:(lia)) as Hm.
      revert H2 H3 Hdm Hm. clear.
      generalize (10 ^ Z.to_N (ndigits_aux fuel (n / 10)%N - 1))%N.
      generalize (10 ^ Z.to_N (ndigits_aux fuel (n / 10)%N))%N.
      generalize (n / 10)%N (n mod 10)%N. intros. lia.
Qed.

Lemma ndigits_spec n :
  (0 < n)%N ->
  1 <= ndigits n /\
  (10 ^ Z.to_N (ndigits n - 1) <= n < 10 ^ Z.to_N (ndigits n))%N.
Proof.
  intros H. apply ndigits_aux_spec; [|exact H].
  rewrite N2Nat.id. apply N.size_gt.
Qed.

Lemma ndigits_unique n m :
  1 <= m ->
  (10 ^ Z.to_N (m - 1) <= n < 10 ^ Z.to_N m)%N ->
  ndigits n = m.
Proof.
  intros Hm [Hlo Hhi].
  assert (Hpos : (0 < n)%N).
  { eapply N.lt_le_trans; [|exact Hlo]. apply N.neq_0_lt_0. apply N.pow_nonzero. lia. }
  destruct (ndigits_spec n Hpos) as (H1 & H2 & H3).
  assert (A : (Z.to_N (m - 1) < Z.to_N (ndigits n))%N).
  { apply (N.pow_lt_mono_r_iff 10); [lia|]. lia. }
  assert (B : (Z.to_N (ndigits n - 1) < Z.to_N m)%N).
  { apply (N.pow_lt_mono_r_iff 10); [lia|]. lia. }
  lia.
Qed.

Lemma ndigits_le n m :
  0 <= m -> (n < 10 ^ Z.to_N m)%N -> (0 < n)%N -> ndigits n <= m.
Proof.
  intros Hm Hlt Hpos.
  destruct (ndigits_spec n Hpos) as (H1 & H2 & H3).
  assert (A : (Z.to_N (ndigits n - 1) < Z.to_N m)%N).
  { apply (N.pow_lt_mono_r_iff 10); [lia|]. lia. }
  lia.
Qed.

Lemma ndigits_0 : ndigits 0 = 1.
Proof. reflexivity. Qed.

(** [_fix] leaves a coefficient of at most [prec] digits at exponent -2 alone. *)
Lemma fix_cents s x :
  (x < 10 ^ 28)%N -> fix_ (mkDecimal s x (-2)) = Returns (mkDecimal s x (-2)).
Proof.
  intros Hx. unfold fix_. cbn [d_int d_exp d_sign].
  destruct (N.eqb_spec x 0) as [->|Hne]; [reflexivity|].
  assert (Hd : ndigits x <= 28) by (apply ndigits_le; [lia| exact Hx | lia]).
  destruct (ndigits_spec x ltac:(lia)) as (H1 & _).
  unfold Etop, Etiny, Emax, Emin, prec.
  destruct (Z.ltb_spec (999999 - 28 + 1) (ndigits x + -2 - 28)); [lia|].
  destruct (Z.ltb_spec (ndigits x + -2 - 28) (-999999 - 28 + 1)); [lia|].
  destruct (Z.ltb_spec (-2) (ndigits x + -2 - 28)); [lia|]. reflexivity.
Qed.

(** [_fix] on a coefficient of [n > prec] digits, away from overflow and
    underflow. *)
Lemma fix_round s P e n :
  ndigits P = n -> (0 < P)%N -> prec < n ->
  Etiny <= n + e - prec -> n + e - prec < Etop ->
  fix_ (mkDecimal s P e) =
    let k := Z.to_N (n - prec) in
    let q := (P / 10 ^ k)%N in
    if rounds_up ROUND_HALF_EVEN P k then
      if prec <? ndigits (q + 1) then Returns (mkDecimal s ((q + 1) / 10) (n + e - prec + 1))
      else Returns (mkDecimal s (q + 1) (n + e - prec))
    else Returns (mkDecimal s q (n + e - prec)).
Proof.
  intros Hn Hpos Hp Hlo Hhi. unfold fix_. cbn [d_int d_exp d_sign].
  destruct (N.eqb_spec P 0) as [->|Hne]; [lia|].
  rewrite Hn.
  destruct (Z.ltb_spec Etop (n + e - prec)); [lia|].
  destruct (Z.ltb_spec (n + e - prec) Etiny); [lia|].
  destruct (Z.ltb_spec e (n + e - prec)); [|lia].
  replace (n + e - prec - e) with (n - prec) by lia.
  cbv zeta.
  destruct (rounds_up ROUND_HALF_EVEN P (Z.to_N (n - prec))).
  - destruct (prec <? ndigits (P / 10 ^ Z.to_N (n - prec) + 1)).
    + destruct (Z.ltb_spec Etop (n + e - prec + 1)); [lia|]. reflexivity.
    + destruct (Z.ltb_spec Etop (n + e - prec)); [lia|]. reflexivity.
  - destruct (Z.ltb_spec Etop (n + e - prec)); [lia|]. reflexivity.
Qed.

(** [dec] on a nonzero number with more than two places. *)
Lemma dec_round s q e m :
  ndigits q = m -> (0 < q)%N -> e < -2 -> e + m + 2 <= prec ->
  (q / 10 ^ Z.to_N (-2 - e) + 1 < 10 ^ 28)%N ->
  dec (mkDecimal s q e) =
    let k := Z.to_N (-2 - e) in
    let coeff := (q / 10 ^ k)%N in
    Returns (mkDecimal s (if rounds_up ROUND_HALF_UP q k then coeff + 1 else coeff)%N (-2)).
Proof.
  intros Hm Hpos He Hsz Hq.
  assert (Hm1 : 1 <= m) by (rewrite <- Hm; apply ndigits_spec; exact Hpos).
  unfold dec, quantize, adjusted. cbn [d_int d_exp d_sign].
  change (negb ((Etiny <=? -2) && (-2 <=? Emax))) with false. cbv iota.
  destruct (N.eqb_spec q 0) as [->|Hne]; [lia|].
  rewrite Hm. unfold rescale. cbn [d_int d_exp d_sign].
  destruct (N.eqb_spec q 0) as [->|_]; [lia|].
  destruct (Z.ltb_spec Emax (e + m - 1)); [unfold Emax, prec in *; lia|].
  destruct (Z.ltb_spec prec (e + m - 1 - -2 + 1)); [lia|].
  destruct (Z.leb_spec (-2) e); [lia|].
  cbv zeta.
  set (k := Z.to_N (-2 - e)) in *.
  set (coeff := (if rounds_up ROUND_HALF_UP q k then (q / 10 ^ k + 1)%N else (q / 10 ^ k)%N)).
  assert (Hc : (coeff < 10 ^ 28)%N).
  { unfold coeff. destruct (rounds_up ROUND_HALF_UP q k); lia. }
  assert (Hd : 1 <= ndigits coeff <= 28).
  { destruct (N.eq_dec coeff 0%N) as [E|Hnz]; [rewrite E, ndigits_0; lia|].
    split; [apply ndigits_spec; lia|apply ndigits_le; [lia|exact Hc|lia]]. }
  cbn [d_int d_exp d_sign].
  destruct (Z.ltb_spec Emax (-2 + ndigits coeff - 1)); [unfold Emax in *; lia|].
  destruct (Z.ltb_spec prec (ndigits coeff)); [unfold prec in *; lia|].
  apply fix_cents. exact Hc.
Qed.


Ltac pow_consts :=
  repeat match goal with
  | |- context [(10 ^ ?k)%N] =>
      let v := eval vm_compute in (10 ^ k)%N in change (10 ^ k)%N with v
  | H : context [(10 ^ ?k)%N] |- _ =>
      let v := eval vm_compute in (10 ^ k)%N in change (10 ^ k)%N with v in H
  end.

Ltac dlia := zify; Z.to_euclidean_division_equations; lia.

(** The second rounding, once the first one has produced [q'] at exponent
    [e1]: [D] is a tenth of the power of ten dropped by [dec]. *)
Ltac second_rounding q' e1 D Dh c :=
  assert (13 * c * D <= q')%N by lia;
  assert (q' < 13 * c * D + Dh)%N by lia;
  unfold_bind;
  rewrite (dec_round _ q' e1 28);
    [ cbv zeta; pow_consts; unfold rounds_up; cbv zeta; pow_consts;
      f_equal; f_equal;
      match goal with
      | |- context [(?a <=? ?b)%N] => destruct (N.leb_spec a b)
      end;
      match goal with
      | B1 : (13 * c * D <= q')%N, B2 : (q' < 13 * c * D + Dh)%N,
        B3 : context [N.modulo] |- _ => clear - B1 B2 B3; dlia
      end
    | apply ndigits_unique; [lia|]; pow_consts; lia
    | lia
    | lia
    | unfold prec; lia
    | pow_consts; dlia ].

(** The product with [n] digits, for a numeral [n]. *)
Ltac digits_case n c :=
  match goal with
  | Hn : ndigits (c * zuschlag_int) = n, Hpos : (0 < c * zuschlag_int)%N |- _ =>
  let e1 := eval vm_compute in (n + -54 - prec) in
  let e1' := eval vm_compute in (n + -54 - prec + 1) in
  let k := eval vm_compute in (Z.to_N (n - prec)) in
  let K := eval vm_compute in (10 ^ k)%N in
  let k2 := eval vm_compute in (Z.to_N (-2 - e1)) in
  let D := eval vm_compute in (10 ^ (k2 - 1))%N in
  let Dh := eval vm_compute in (5 * 10 ^ (k2 - 2))%N in
  let Hlo := fresh "Hlo" in let Hhi := fresh "Hhi" in
  destruct (ndigits_spec _ Hpos) as (_ & Hlo & Hhi); rewrite Hn in Hlo, Hhi;
  rewrite (fix_round _ _ (-54) n Hn Hpos);
    [| reflexivity | unfold Etiny, Emin, prec; lia | unfold Etop, Emax, prec; lia];
  cbv zeta;
  change (n + -54 - prec + 1) with e1'; change (n + -54 - prec) with e1;
  change (Z.to_N (n - prec)) with k;
  unfold rounds_up at 1; cbv zeta; unfold zuschlag_int in *; pow_consts;
  match goal with
  | |- context [(?P / K)%N] =>
      let q := fresh "q" in let rest := fresh "rest" in
      set (q := (P / K)%N); set (rest := (P mod K)%N);
      assert (P = (K * q + rest)%N) by (apply N.Div0.div_mod);
      assert (rest < K)%N by (apply N.mod_lt; discriminate);
      clearbody q rest;
      assert (Hq1 : (q + 1 < 10 ^ 28)%N) by (pow_consts; lia);
      assert (Hcarry : (prec <? ndigits (q + 1)) = false)
        by (apply Z.ltb_ge; apply ndigits_le; [unfold prec; lia | exact Hq1 | lia]);
      rewrite Hcarry;
      match goal with
      | |- context [((rest =? ?h)%N && N.even q)] =>
          let Etie := fresh "Etie" in
          destruct ((rest =? h)%N && N.even q) eqn:Etie;
            [ apply andb_prop in Etie as [Etie _]; apply N.eqb_eq in Etie;
              second_rounding q e1 D Dh c
            | clear Etie; destruct (N.leb_spec h rest);
                [ second_rounding (q + 1)%N e1 D Dh c
                | second_rounding q e1 D Dh c ] ]
      end
  end
  end.

Lemma ndigits_product c :
  (0 < c < 10 ^ 15)%N -> 53 <= ndigits (c * zuschlag_int) <= 68.
Proof.
  intros Hc.
  assert (Hpos : (0 < c * zuschlag_int)%N) by (unfold zuschlag_int; lia).
  destruct (ndigits_spec _ Hpos) as (H1 & H2 & H3).
  assert (A : (52 < Z.to_N (ndigits (c * zuschlag_int)))%N).
  { apply (N.pow_lt_mono_r_iff 10); [lia|].
    eapply N.le_lt_trans; [|exact H3]. unfold zuschlag_int. pow_consts. lia. }
  assert (B : (Z.to_N (ndigits (c * zuschlag_int) - 1) < 68)%N).
  { apply (N.pow_lt_mono_r_iff 10); [lia|].
    eapply N.le_lt_trans; [exact H2|]. unfold zuschlag_int. pow_consts.
    pow_consts. lia. }
  lia.
Qed.

(** For a gross amount of two places below 10^13, multiplying by
    [zuschlag] and rounding to cents gives the gross amount times 1.30
    rounded half-up: [(13 * c + 5) / 10] cents for [c] cents. *)
Lemma mul_zuschlag_dec s c :
  (c < 10 ^ 15)%N ->
  (produkt ← Decimal_mul (mkDecimal s c (-2)) (zuschlag ÖtvKosten_init); dec produkt)
    = Returns (mkDecimal s ((13 * c + 5) / 10) (-2)).
Proof.
  intros Hc.
  destruct zuschlag_init_value as [_ ->].
  unfold Decimal_mul. cbn [d_sign d_int d_exp]. rewrite xorb_false_r.
  change (-2 + -52) with (-54).
  change 13000000000000000444089209850062616169452667236328125%N with zuschlag_int.
  destruct (N.eq_dec c 0%N) as [->|Hc0]; [destruct s; vm_compute; reflexivity|].
  assert (Hpos : (0 < c * zuschlag_int)%N) by (unfold zuschlag_int; lia).
  pose proof (ndigits_product c ltac:(lia)) as Hn.
  remember (ndigits (c * zuschlag_int)) as n eqn:En. symmetry in En.
  pow_consts.
  assert (Hcases : n = 53 \/ n = 54 \/ n = 55 \/ n = 56 \/ n = 57 \/ n = 58 \/
                   n = 59 \/ n = 60 \/ n = 61 \/ n = 62 \/ n = 63 \/ n = 64 \/
                   n = 65 \/ n = 66 \/ n = 67 \/ n = 68) by lia.
  clear Hn.
  repeat (destruct Hcases as [Hcases | Hcases]); subst n.
  - digits_case 53 c.
  - digits_case 54 c.
  - digits_case 55 c.
  - digits_case 56 c.
  - digits_case 57 c.
  - digits_case 58 c.
  - digits_case 59 c.
  - digits_case 60 c.
  - digits_case 61 c.
  - digits_case 62 c.
  - digits_case 63 c.
  - digits_case 64 c.
  - digits_case 65 c.
  - digits_case 66 c.
  - digits_case 67 c.
  - digits_case 68 c.
Qed.

(** [_fix] leaves a coefficient of at most [prec] digits alone when the
    exponent is in the normal range. *)
Lemma fix_short s x e :
  (0 < x)%N -> ndigits x <= prec -> Etiny <= e -> e <= Etop ->
  fix_ (mkDecimal s x e) = Returns (mkDecimal s x e).
Proof.
  intros Hx Hd He1 He2. unfold fix_. cbn [d_int d_exp d_sign].
  destruct (N.eqb_spec x 0) as [->|Hne]; [lia|].
  destruct (Z.ltb_spec Etop (ndigits x + e - prec)); [lia|].
  destruct (Z.ltb_spec (ndigits x + e - prec) Etiny).
  - destruct (Z.ltb_spec e Etiny); [lia|reflexivity].
  - destruct (Z.ltb_spec e (ndigits x + e - prec)); [lia|reflexivity].
Qed.

(** The same with the exact factor 1.30. *)
Lemma mul_exakt_dec s c :
  (c < 10 ^ 15)%N ->
  (produkt ← Decimal_mul (mkDecimal s c (-2)) zuschlag_exakt; dec produkt)
    = Returns (mkDecimal s ((13 * c + 5) / 10) (-2)).
Proof.
  intros Hc. unfold Decimal_mul, zuschlag_exakt. cbn [d_sign d_int d_exp].
  rewrite xorb_false_r. change (-2 + -2) with (-4).
  destruct (N.eq_dec c 0%N) as [->|Hc0]; [destruct s; vm_compute; reflexivity|].
  pow_consts.
  assert (Hpos : (0 < c * 130)%N) by lia.
  assert (Hd : ndigits (c * 130) <= 18).
  { apply ndigits_le; [lia| pow_consts; lia | exact Hpos]. }
  rewrite fix_short;
    [| exact Hpos | unfold prec; lia | unfold Etiny, Emin, prec; lia
     | unfold Etop, Emax, prec; lia].
  unfold_bind.
  rewrite (dec_round s (c * 130) (-4) (ndigits (c * 130)));
    [| reflexivity | exact Hpos | lia | unfold prec; lia | pow_consts; dlia].
  cbv zeta. change (Z.to_N (-2 - -4)) with 2%N.
  unfold rounds_up. cbv zeta. pow_consts.
  f_equal. f_equal.
  destruct (N.leb_spec (5 * 10) ((c * 130) mod 100)); dlia.
Qed.

(** Below 10^13 the float factor does not show: for a stored gross of
    [c] cents, [c < 10^15], the monthly total is the gross times 1.30
    rounded half-up to cents, with the float factor as with the exact one. *)
Lemma summeMonatlich_exact_below_1e13 self jahr gus gehalt s c :
  zuschlag self = zuschlag ÖtvKosten_init ->
  gehälter self !! (jahr, gus) = Some gehalt ->
  brutto gehalt = mkDecimal s c (-2) ->
  (c < 10 ^ 15)%N ->
  summeMonatlich self jahr gus = Returns (mkDecimal s ((13 * c + 5) / 10) (-2)) /\
  summeMonatlich_exakt self jahr gus = summeMonatlich self jahr gus.
Proof.
  intros Hz Hg Hb Hc.
  assert (E : summeMonatlich self jahr gus
              = Returns (mkDecimal s ((13 * c + 5) / 10) (-2))).
  { rewrite (summeMonatlich_brutto _ _ _ _ Hg), Hz, Hb. apply mul_zuschlag_dec, Hc. }
  split; [exact E|]. rewrite E.
  unfold summeMonatlich_exakt. rewrite Hg, Hb. apply mul_exakt_dec, Hc.
Qed.

(** C6, evaluated: the factor stored by [__init__] is the binary float
    nearest to 1.3 converted digit by digit, not 1.30.  For a stored
    gross of 30000000000000.08 the monthly total is 39000000000000.11,
    whereas the gross times 1.30 is 39000000000000.104, which rounds
    half-up to 39000000000000.10. *)
Theorem C6_summeMonatlich_float_factor :
  let gus := mkGuS E_13 sechs in
  let gehalt := mkGehalt (mkDecimal false 3000000000000008 (-2))
                         (mkDecimal false 0 (-2)) in
  let self := snd (mitGehalt ÖtvKosten_init 2019 gus gehalt) in
  zuschlag self <> zuschlag_exakt /\
  summeMonatlich self 2019 gus = Returns (mkDecimal false 3900000000000011 (-2)) /\
  summeMonatlich_exakt self 2019 gus = Returns (mkDecimal false 3900000000000010 (-2)).
Proof.
  cbv zeta. split; [|split].
  - rewrite mitGehalt_zuschlag.
    destruct zuschlag_init_value as [_ ->]. discriminate.
  - vm_compute. reflexivity.
  - vm_compute. reflexivity.
Qed.

(** ** C7 *)

(** C7: [mitGehalt] writes once.  On a key that already has an entry it
    raises the assertion error carrying the year, the grade and step and
    the stored salary, and the ledger is left as it was; on a key without
    an entry it returns and the ledger holds the given salary under the
    key, every other entry being untouched.  A second call for the same
    key therefore raises and leaves the first salary in place. *)
Theorem C7_mitGehalt_write_once self jahr gus gehalt :
  (forall ist,
     gehälter self !! (jahr, gus) = Some ist ->
     mitGehalt self jahr gus gehalt = (Raises (AssertionError jahr gus ist), self)) /\
  (gehälter self !! (jahr, gus) = None ->
     fst (mitGehalt self jahr gus gehalt) = Returns tt /\
     gehälter (snd (mitGehalt self jahr gus gehalt)) !! (jahr, gus) = Some gehalt /\
     (forall key, key <> (jahr, gus) ->
        gehälter (snd (mitGehalt self jahr gus gehalt)) !! key = gehälter self !! key) /\
     zuschlag (snd (mitGehalt self jahr gus gehalt)) = zuschlag self) /\
  (gehälter self !! (jahr, gus) = None ->
     forall gehalt2,
       let self1 := snd (mitGehalt self jahr gus gehalt) in
       mitGehalt self1 jahr gus gehalt2
         = (Raises (AssertionError jahr gus gehalt), self1) /\
       gehälter (snd (mitGehalt self1 jahr gus gehalt2)) !! (jahr, gus) = Some gehalt).
Proof.
  assert (Hnew : gehälter self !! (jahr, gus) = None ->
                 gehälter (snd (mitGehalt self jahr gus gehalt)) !! (jahr, gus)
                   = Some gehalt).
  { intros H. unfold mitGehalt. rewrite H. simpl. apply lookup_insert_eq. }
  split; [|split].
  - intros ist H. unfold mitGehalt. rewrite H. reflexivity.
  - intros H. split; [unfold mitGehalt; rewrite H; reflexivity|].
    split; [exact (Hnew H)|]. split; [|apply mitGehalt_zuschlag].
    intros key Hk. unfold mitGehalt. rewrite H. simpl.
    apply lookup_insert_ne. congruence.
  - intros H gehalt2 self1. subst self1.
    assert (E : mitGehalt (snd (mitGehalt self jahr gus gehalt)) jahr gus gehalt2
                = (Raises (AssertionError jahr gus gehalt),
                   snd (mitGehalt self jahr gus gehalt))).
    { unfold mitGehalt at 1. rewrite (Hnew H). reflexivity. }
    rewrite E. split; [reflexivity|]. simpl. exact (Hnew H).
Qed.

Lemma C7_mitGehalt_write_once_witness :
  let g1 := mkGehalt (mkDecimal false 300000 (-2)) (mkDecimal false 100000 (-2)) in
  let g2 := mkGehalt (mkDecimal false 999999 (-2)) (mkDecimal false 0 (-2)) in
  let self1 := snd (mitGehalt ÖtvKosten_init 2019 (mkGuS E_10 drei) g1) in
  gehälter self1 !! (2019, mkGuS E_10 drei) = Some g1 /\
  mitGehalt self1 2019 (mkGuS E_10 drei) g2
    = (Raises (AssertionError 2019 (mkGuS E_10 drei) g1), self1).
Proof.
  intros g1 g2 self1.
  destruct (C7_mitGehalt_write_once ÖtvKosten_init 2019 (mkGuS E_10 drei) g1)
    as (_ & Hnew & Htwice).
  split.
  - apply Hnew. reflexivity.
  - apply (Htwice eq_refl g2).
Defined.

(** * Further properties *)

(** ** Enumeration lookup and reachable steps *)

(** X1: the by-value lookup [Stufe(v)] inverts [value]: it returns the
    member whose value is [v] for the values 1 to 6 and raises
    [ValueError] for every other integer. *)
Theorem X1_Stufe_of_value_roundtrip :
  (forall s, Stufe_of_value (value s) = Returns s) /\
  (forall v s, Stufe_of_value v = Returns s -> value s = v) /\
  (forall v, v < 1 \/ 6 < v -> Stufe_of_value v = Raises ValueError).
Proof.
  assert (Hout : forall v, v < 1 \/ 6 < v -> Stufe_of_value v = Raises ValueError).
  { intros v Hv. unfold Stufe_of_value.
    repeat match goal with
           | |- context [?a =? ?b] => destruct (Z.eqb_spec a b); [lia|]
           end.
    reflexivity. }
  split; [intros []; reflexivity|]. split; [|exact Hout].
  intros v s H.
  assert (Hv : v = 1 \/ v = 2 \/ v = 3 \/ v = 4 \/ v = 5 \/ v = 6 \/ (v < 1 \/ 6 < v))
    by lia.
  repeat (destruct Hv as [-> | Hv]; [inversion H; reflexivity|]).
  rewrite (Hout v Hv) in H. discriminate H.
Qed.

Lemma X1_Stufe_of_value_roundtrip_witness :
  value drei = 3 /\ Stufe_of_value 7 = Raises ValueError.
Proof.
  destruct X1_Stufe_of_value_roundtrip as (_ & Hinv & Hout).
  split.
  - apply (Hinv 3 drei). reflexivity.
  - apply (Hout 7). lia.
Defined.

Lemma erreichbar_value s s' : erreichbar s s' -> value s <= value s'.
Proof.
  induction 1 as [s|s s' s'' _ IH Hn]; [lia|].
  rewrite nächste_succ in Hn. inversion Hn; subst.
  rewrite value_succ. pose proof (value_range s'). lia.
Qed.

(** X2: repeated [nächste] reaches exactly the steps that are not lower:
    a step is reachable from another if and only if its ordinal is at
    least as large.  Five calls lead from every step to the maximum. *)
Theorem X2_erreichbar_iff_value :
  (forall s s', erreichbar s s' <-> value s <= value s') /\
  (forall s, Nat.iter 5 (fun o => o ≫= nächste) (Returns s) = Returns sechs).
Proof.
  split; [|intros []; reflexivity].
  intros s s'. split; [apply erreichbar_value|].
  intros H.
  assert (E : exists k, s' = Nat.iter k Stufe_succ s).
  { destruct s, s'; simpl in H; try lia;
      first [ exists 0%nat; reflexivity | exists 1%nat; reflexivity
            | exists 2%nat; reflexivity | exists 3%nat; reflexivity
            | exists 4%nat; reflexivity | exists 5%nat; reflexivity ]. }
  destruct E as [k ->]. apply erreichbar_iter.
Qed.

Lemma X2_erreichbar_iff_value_witness : erreichbar zwei fünf.
Proof.
  destruct X2_erreichbar_iff_value as (H & _).
  apply (H zwei fünf). simpl. lia.
Defined.

(** ** More on [Stelle.am] *)

(** The dates the loop returns: the one it was started with, or one of
    the due dates, which are valid and keep month and day. *)
Lemma am_loop_dates datum fuel : forall s t ns s' t',
  valid_date ns ->
  am_loop fuel datum s t ns = Returns (s', t') ->
  t' = t \/ (valid_date t' /\ month t' = month ns /\ day t' = day ns).
Proof.
  induction fuel as [|fuel IH]; intros s t ns s' t' Hv Hrun.
  - simpl in Hrun. destruct (date_le ns datum); [discriminate|].
    inversion Hrun; auto.
  - destruct (date_le ns datum) eqn:E.
    + rewrite am_loop_step in Hrun by assumption.
      destruct (nächsterAufstieg (Stufe_succ s) ns) as [ns'| |] eqn:Hns;
        unfold_bind; try discriminate.
      apply nächsterAufstieg_Returns in Hns as (-> & Hv' & _).
      destruct (IH _ _ _ _ _ Hv' Hrun) as [-> | (H1 & H2 & H3)]; right; auto.
    + rewrite am_loop_exit in Hrun by assumption. inversion Hrun; auto.
Qed.

(** A run that enters the loop body advances the step at least once. *)
Lemma am_loop_progress datum fuel s t ns s' t' :
  date_le ns datum = true ->
  am_loop fuel datum s t ns = Returns (s', t') ->
  exists k : nat, s' = Nat.iter k Stufe_succ (Stufe_succ s).
Proof.
  intros E Hrun. destruct fuel as [|fuel].
  - simpl in Hrun. rewrite E in Hrun. discriminate.
  - rewrite am_loop_step in Hrun by assumption.
    destruct (nächsterAufstieg (Stufe_succ s) ns) as [ns'| |];
      unfold_bind; try discriminate.
    exact (am_loop_steps _ _ _ _ _ _ _ Hrun).
Qed.

Lemma iter_succ_above s k :
  s <> sechs -> Nat.iter k Stufe_succ (Stufe_succ s) <> s.
Proof.
  intros Hs Hc.
  pose proof (iter_succ_value k (Stufe_succ s)) as Hv. rewrite Hc in Hv.
  rewrite value_succ in Hv. destruct s; simpl in Hv; try lia. contradiction.
Qed.

(** X3: for a position below the maximum step, the position a
    projection returns is current at the target date: its own next
    advancement date exists in the calendar and is strictly later than
    the target.  Its [beginn] keeps the month and the day of the old one,
    and is a valid date when the position changed. *)
Theorem X3_am_result_is_current p d r :
  stufe (gus p) <> sechs ->
  am p d = Returns r ->
  (exists due, nächsterAufstieg (stufe (gus r)) (beginn r) = Returns due /\
               date_lt d due = true) /\
  month (beginn r) = month (beginn p) /\
  day (beginn r) = day (beginn p) /\
  (r <> p -> valid_date (beginn r)).
Proof.
  intros Hmax H.
  apply am_Returns in H as (ns & s' & t' & Hns & Hl & Hr).
  specialize (Hl _ (Nat.le_refl _)).
  pose proof (am_loop_post _ _ _ _ _ _ _ Hns Hl) as (_ & Hcase & (ns' & Hns' & Hex)).
  pose proof (nächsterAufstieg_Returns _ _ _ Hns) as (Ens & Hvns & Hlt).
  pose proof (am_loop_dates _ _ _ _ _ _ _ Hvns Hl) as Hd.
  rewrite Ens in Hd. simpl in Hd.
  destruct (decide (s' = stufe (gus p))) as [E|E]; subst r.
  - split; [|split; [reflexivity|split; [reflexivity|contradiction]]].
    destruct (date_le ns d) eqn:Ed.
    + destruct (am_loop_progress _ _ _ _ _ _ _ Ed Hl) as [k Hk].
      rewrite E in Hk. symmetry in Hk. apply iter_succ_above in Hk; [contradiction|exact Hmax].
    + exists ns. split; [exact Hns|apply date_le_false; exact Ed].
  - simpl. split; [exists ns'; split; [exact Hns'|apply date_le_false; exact Hex]|].
    destruct Hcase as [(Hs & _) | (H1 & _)]; [contradiction|].
    destruct Hd as [-> | (Hv & Hm & Hday)]; [|auto].
    exfalso. pose proof (date_lt_le_trans _ _ _ Hlt H1) as Hc.
    rewrite date_lt_spec in Hc. lia.
Qed.

Lemma X3_am_result_is_current_witness :
  exists due,
    nächsterAufstieg vier (mkDate 2021 7 1) = Returns due /\
    date_lt (mkDate 2024 12 31) due = true.
Proof.
  destruct (X3_am_result_is_current
              (mkStelle (mkGuS E_10 eins) (mkDate 2015 7 1)) (mkDate 2024 12 31)
              (mkStelle (mkGuS E_10 vier) (mkDate 2021 7 1)))
    as (H & _); [discriminate | reflexivity | exact H].
Defined.

(** X4: a start date of 29 February makes the projection raise
    [ValueError] for every target date, earlier ones included, whenever
    the year of the first due date is not a leap year: the due date is
    computed before the loop condition is tested. *)
Theorem X4_am_feb29_raises p d :
  month (beginn p) = 2 -> day (beginn p) = 29 ->
  is_leap (year (beginn p) + jahre (stufe (gus p))) = false ->
  am p d = Raises ValueError.
Proof.
  intros Hm Hd Hl. unfold am, am_fuel, nächsterAufstieg, date_new.
  replace (date_fields_ok _ _ _) with false; [reflexivity|].
  unfold date_fields_ok, days_in_month. rewrite Hm, Hd, Hl. simpl.
  rewrite !andb_false_r. reflexivity.
Qed.

Lemma X4_am_feb29_raises_witness :
  valid_date (mkDate 2020 2 29) /\
  am (mkStelle (mkGuS E_13 drei) (mkDate 2020 2 29)) (mkDate 2019 1 1)
    = Raises ValueError.
Proof.
  split; [reflexivity|].
  apply X4_am_feb29_raises; reflexivity.
Defined.

(** The loop returns, raises [ValueError] or runs out of fuel. *)
Lemma am_loop_outcomes datum fuel : forall s t ns,
  (exists r, am_loop fuel datum s t ns = Returns r) \/
  am_loop fuel datum s t ns = Raises ValueError \/
  am_loop fuel datum s t ns = OutOfFuel.
Proof.
  induction fuel as [|fuel IH]; intros s t ns.
  - simpl. destruct (date_le ns datum); eauto.
  - destruct (date_le ns datum) eqn:E.
    + rewrite am_loop_step by assumption.
      destruct (nächsterAufstieg_cases (Stufe_succ s) ns) as [-> | ->];
        unfold_bind; [apply IH|auto].
    + rewrite am_loop_exit by assumption. eauto.
Qed.

Lemma am_outcomes p d :
  (exists r, am p d = Returns r) \/ am p d = Raises ValueError.
Proof.
  pose proof (am_terminates p d) as Hne.
  unfold am, am_fuel in *.
  destruct (nächsterAufstieg_cases (stufe (gus p)) (beginn p)) as [E | E];
    rewrite E in *; unfold_bind; [|right; reflexivity].
  set (ns := mkDate _ _ _) in *.
  destruct (am_loop_outcomes d (am_bound p d) (stufe (gus p)) (beginn p) ns)
    as [[[s' t'] Hr] | [Hr | Hr]]; rewrite Hr in *.
  - left. eexists. reflexivity.
  - right. reflexivity.
  - congruence.
Qed.

(** X5: a projection to a date in the last year of the calendar that is
    on or after the anniversary of [beginn] never returns: whatever the
    position, the loop needs a due date after the target, and none
    exists.  In particular every projection to 9999-12-31 raises
    [ValueError]. *)
Theorem X5_am_calendar_end p d :
  year d = MAXYEAR ->
  date_le (mkDate MAXYEAR (month (beginn p)) (day (beginn p))) d = true ->
  am p d = Raises ValueError.
Proof.
  intros Hy Hd.
  destruct (am_outcomes p d) as [[r Hr] | Hr]; [|exact Hr].
  exfalso.
  apply am_Returns in Hr as (ns & s' & t' & Hns & Hl & _).
  specialize (Hl _ (Nat.le_refl _)).
  pose proof (am_loop_post _ _ _ _ _ _ _ Hns Hl) as (_ & _ & (ns' & Hns' & Hex)).
  pose proof (nächsterAufstieg_Returns _ _ _ Hns) as (Ens & Hvns & _).
  pose proof (am_loop_dates _ _ _ _ _ _ _ Hvns Hl) as Hdates.
  rewrite Ens in Hdates. simpl in Hdates.
  apply nächsterAufstieg_Returns in Hns' as (Ens' & Hv' & _).
  assert (Hmd : month ns' = month (beginn p) /\ day ns' = day (beginn p)).
  { rewrite Ens'. simpl. destruct Hdates as [-> | (_ & -> & ->)]; auto. }
  apply date_le_false in Hex.
  unfold valid_date, date_fields_ok in Hv'.
  repeat (apply andb_prop in Hv' as [Hv' ?]).
  destruct Hmd as [Hm Hday].
  rewrite date_lt_spec in Hex. rewrite date_le_spec in Hd. simpl in Hd.
  unfold MAXYEAR in *. lia.
Qed.

Lemma X5_am_calendar_end_witness :
  am (mkStelle (mkGuS E_10 zwei) (mkDate 2020 1 1)) (mkDate 9999 12 31)
    = Raises ValueError.
Proof.
  apply X5_am_calendar_end; reflexivity.
Defined.

(** *** The step as a function of the years elapsed *)

Lemma date_le_anniversary b d y :
  date_le (mkDate y (month b) (day b)) d = true <-> y - year b <= volle_jahre b d.
Proof.
  unfold volle_jahre.
  destruct (date_lt (mkDate (year b) (month d) (day d)) b) eqn:E.
  - apply date_lt_spec in E. simpl in E. rewrite date_le_spec. simpl. lia.
  - assert (N : ~ (date_lt (mkDate (year b) (month d) (day d)) b = true)) by congruence.
    rewrite date_lt_spec in N. simpl in N. rewrite date_le_spec. simpl. lia.
Qed.

Lemma jahre_bis_succ s :
  s <> sechs -> jahre_bis (Stufe_succ s) = jahre_bis s + jahre s.
Proof. destruct s; intros H; try reflexivity. contradiction. Qed.

Lemma jahre_bis_mono s s' : value s <= value s' -> jahre_bis s <= jahre_bis s'.
Proof. destruct s, s'; simpl; unfold jahre, Stufe_init; simpl; lia. Qed.

Lemma value_lt_succ s ziel :
  value s < value ziel -> ziel = Stufe_succ s \/ value (Stufe_succ s) < value ziel.
Proof. destruct s, ziel; simpl; intros; try lia; auto. Qed.

(** The loop, started on step [s] with the due date that lies
    [jahre_bis (Stufe_succ s) - jahre_bis s0] years after [b]. *)
Lemma am_loop_years b s0 datum fuel : forall s t ns s' t',
  (s <> sechs ->
   ns = mkDate (year b + (jahre_bis (Stufe_succ s) - jahre_bis s0)) (month b) (day b)) ->
  am_loop fuel datum s t ns = Returns (s', t') ->
  forall ziel, value s < value ziel ->
    (value ziel <= value s' <->
     jahre_bis ziel - jahre_bis s0 <= volle_jahre b datum).
Proof.
  induction fuel as [|fuel IH]; intros s t ns s' t' Hinv Hrun ziel Hz.
  - simpl in Hrun. destruct (date_le ns datum) eqn:E; [discriminate|].
    inversion Hrun; subst s' t'.
    assert (Hs : s <> sechs) by (intros ->; pose proof (value_range ziel); simpl in Hz; lia).
    rewrite (Hinv Hs) in E.
    assert (N : ~ (year b + (jahre_bis (Stufe_succ s) - jahre_bis s0) - year b
                   <= volle_jahre b datum)).
    { rewrite <- date_le_anniversary. congruence. }
    pose proof (jahre_bis_mono (Stufe_succ s) ziel) as Hm.
    destruct (value_lt_succ _ _ Hz) as [-> | Hlt]; lia.
  - assert (Hs : s <> sechs) by (intros ->; pose proof (value_range ziel); simpl in Hz; lia).
    destruct (date_le ns datum) eqn:E.
    + pose proof (am_loop_progress _ _ _ _ _ _ _ E Hrun) as [k Hk].
      pose proof (iter_succ_value k (Stufe_succ s)) as Hv. rewrite <- Hk in Hv.
      rewrite am_loop_step in Hrun by assumption.
      destruct (nächsterAufstieg (Stufe_succ s) ns) as [ns'| |] eqn:Hns;
        unfold_bind; try discriminate.
      apply nächsterAufstieg_Returns in Hns as (Ens' & _).
      rewrite (Hinv Hs) in E. apply date_le_anniversary in E.
      destruct (value_lt_succ _ _ Hz) as [-> | Hlt].
      * split; intros _; lia.
      * refine (IH _ _ _ _ _ _ Hrun ziel Hlt).
        intros Hs1. rewrite Ens', (Hinv Hs). simpl.
        rewrite (jahre_bis_succ (Stufe_succ s) Hs1). f_equal. lia.
    + rewrite am_loop_exit in Hrun by assumption.
      inversion Hrun; subst s' t'.
      rewrite (Hinv Hs) in E.
      assert (N : ~ (year b + (jahre_bis (Stufe_succ s) - jahre_bis s0) - year b
                     <= volle_jahre b datum)).
      { rewrite <- date_le_anniversary. congruence. }
      pose proof (jahre_bis_mono (Stufe_succ s) ziel) as Hm.
      destruct (value_lt_succ _ _ Hz) as [-> | Hlt]; lia.
Qed.

(** X6: the step a projection returns is a function of the whole years
    elapsed since [beginn]: a higher step [ziel] has been reached at the
    target date exactly when the intervals of the steps from the
    original one up to the one below [ziel] add up to at most the number
    of anniversaries of [beginn] that are not later than the target.
    From step [eins] the steps above are reached after 1, 3, 6, 10 and
    15 years. *)
Theorem X6_am_step_by_years p d r ziel :
  am p d = Returns r ->
  value (stufe (gus p)) < value ziel ->
  (value ziel <= value (stufe (gus r)) <->
   jahre_bis ziel - jahre_bis (stufe (gus p)) <= volle_jahre (beginn p) d).
Proof.
  intros H Hz.
  apply am_Returns in H as (ns & s' & t' & Hns & Hl & ->).
  specialize (Hl _ (Nat.le_refl _)).
  rewrite am_result_stufe.
  refine (am_loop_years (beginn p) (stufe (gus p)) d _ _ _ _ _ _ _ Hl ziel Hz).
  intros Hs. apply nächsterAufstieg_Returns in Hns as (-> & _).
  rewrite (jahre_bis_succ _ Hs). f_equal. lia.
Qed.

Lemma X6_am_step_by_years_witness :
  value sechs <= value (stufe (gus (mkStelle (mkGuS E_13 sechs) (mkDate 2015 3 1))))
  <-> jahre_bis sechs - jahre_bis eins
      <= volle_jahre (mkDate 2000 3 1) (mkDate 2015 3 1).
Proof.
  apply (X6_am_step_by_years (mkStelle (mkGuS E_13 eins) (mkDate 2000 3 1))
           (mkDate 2015 3 1)); [reflexivity | simpl; lia].
Defined.

(** *** Projecting in two stages *)

(** The run to a later target continues where the run to an earlier
    target stopped. *)
Lemma am_loop_resume d1 d2 fuel : forall s t ns s1 t1 s2 t2 ns1,
  date_le d1 d2 = true ->
  nächsterAufstieg s t = Returns ns ->
  am_loop fuel d1 s t ns = Returns (s1, t1) ->
  am_loop fuel d2 s t ns = Returns (s2, t2) ->
  nächsterAufstieg s1 t1 = Returns ns1 ->
  am_loop fuel d2 s1 t1 ns1 = Returns (s2, t2).
Proof.
  induction fuel as [|fuel IH]; intros s t ns s1 t1 s2 t2 ns1 Hd Hinv H1 H2 Hns1.
  - simpl in H1. destruct (date_le ns d1); [discriminate|].
    inversion H1; subst. rewrite Hinv in Hns1. inversion Hns1; subst. exact H2.
  - destruct (date_le ns d1) eqn:E1.
    + assert (E2 : date_le ns d2 = true) by (eapply date_le_trans; eassumption).
      rewrite am_loop_step in H1, H2 by assumption.
      destruct (nächsterAufstieg (Stufe_succ s) ns) as [ns'| |] eqn:Hns;
        unfold_bind; try discriminate.
      pose proof (IH _ _ _ _ _ _ _ _ Hd Hns H1 H2 Hns1) as Hr.
      rewrite (am_loop_fuel_mono d2 fuel (S fuel));
        [exact Hr | lia | rewrite Hr; discriminate].
    + rewrite am_loop_exit in H1 by assumption.
      inversion H1; subst. rewrite Hinv in Hns1. inversion Hns1; subst. exact H2.
Qed.

(** X7: projecting in two stages.  For [d1 <= d2], if the projections
    of [p] to [d1] and to [d2] return [r1] and [r2], then projecting
    [r1] on to [d2] returns a position with the grade and step of [r2].
    It is [r2] itself unless [r2] is at the maximum step; at the maximum
    step its [beginn] may be earlier than that of [r2], which goes on
    moving by six years. *)
Theorem X7_am_two_stages p d1 d2 r1 r2 :
  date_le d1 d2 = true ->
  am p d1 = Returns r1 ->
  am p d2 = Returns r2 ->
  exists r12,
    am r1 d2 = Returns r12 /\
    gus r12 = gus r2 /\
    date_le (beginn r12) (beginn r2) = true /\
    (stufe (gus r2) <> sechs -> r12 = r2).
Proof.
  intros Hd H1 H2.
  pose proof H2 as H2'.
  apply am_Returns in H1 as (ns & s1 & t1 & Hns & Hl1 & Hr1).
  apply am_Returns in H2 as (ns_ & s2 & t2 & Hns_ & Hl2 & Hr2).
  rewrite Hns in Hns_. inversion Hns_; subst ns_. clear Hns_.
  set (fuel := Nat.max (am_bound p d1) (am_bound p d2)).
  specialize (Hl1 fuel ltac:(lia)). specialize (Hl2 fuel ltac:(lia)).
  destruct (decide (s1 = stufe (gus p))) as [E1|E1].
  { subst r1. exists r2. rewrite H2'.
    repeat split; auto using date_le_refl. }
  pose proof (am_loop_post _ _ _ _ _ _ _ Hns Hl1) as (_ & Hc1 & (ns1 & Hns1 & Hex1)).
  pose proof (am_loop_resume _ _ _ _ _ _ _ _ _ _ _ Hd Hns Hl1 Hl2 Hns1) as Hl12.
  pose proof (am_loop_post _ _ _ _ _ _ _ Hns1 Hl12) as (_ & Hc12 & _).
  pose proof (am_loop_mono_datum _ _ _ _ _ _ _ _ Hd Hl2) as (s1' & t1' & Hl1' & Hv).
  rewrite Hl1 in Hl1'. inversion Hl1'; subst s1' t1'. clear Hl1'.
  pose proof (am_loop_steps _ _ _ _ _ _ _ Hl1) as [k1 Hk1].
  pose proof (iter_succ_value k1 (stufe (gus p))) as Hv1. rewrite <- Hk1 in Hv1.
  assert (Hlt1 : value (stufe (gus p)) < value s1).
  { destruct (Z.eq_dec (value (stufe (gus p))) (value s1)) as [Ev|Ev]; [|lia].
    apply value_inj in Ev. congruence. }
  assert (E2 : s2 <> stufe (gus p)) by (intros ->; lia).
  destruct (decide (s2 = stufe (gus p))) as [?|_]; [contradiction|].
  set (r1' := mkStelle (mkGuS (gruppe (gus p)) s1) t1) in *.
  pose proof (am_of_loop r1' d2 fuel ns1 s2 t2 Hns1 Hl12) as Ham.
  simpl in Ham. subst r1 r2.
  eexists. split; [exact Ham|].
  destruct (decide (s2 = s1)) as [E|E]; simpl.
  - subst s2. split; [reflexivity|].
    destruct Hc12 as [(_ & Ht & _) | (Ha & Hb)].
    + subst t2. split; [apply date_le_refl|reflexivity].
    + assert (Hle : date_le t1 t2 = true).
      { apply nächsterAufstieg_Returns in Hns1 as (_ & _ & Hlt).
        apply date_lt_le. eapply date_lt_le_trans; eassumption. }
      split; [exact Hle|]. intros Hmax. exfalso.
      assert (Ed : date_le ns1 d2 = true) by (eapply date_le_trans; eassumption).
      destruct (am_loop_progress _ _ _ _ _ _ _ Ed Hl12) as [k Hk].
      symmetry in Hk. apply iter_succ_above in Hk; [contradiction|exact Hmax].
  - split; [reflexivity|]. split; [apply date_le_refl|reflexivity].
Qed.

Lemma X7_am_two_stages_witness :
  exists r12,
    am (mkStelle (mkGuS E_10 drei) (mkDate 2003 5 1)) (mkDate 2012 1 1) = Returns r12 /\
    gus r12 = gus (mkStelle (mkGuS E_10 fünf) (mkDate 2010 5 1)) /\
    date_le (beginn r12) (beginn (mkStelle (mkGuS E_10 fünf) (mkDate 2010 5 1))) = true /\
    (stufe (gus (mkStelle (mkGuS E_10 fünf) (mkDate 2010 5 1))) <> sechs ->
     r12 = mkStelle (mkGuS E_10 fünf) (mkDate 2010 5 1)).
Proof.
  apply (X7_am_two_stages (mkStelle (mkGuS E_10 eins) (mkDate 2000 5 1))
           (mkDate 2005 1 1) (mkDate 2012 1 1)); reflexivity.
Defined.

(** The year of the returned date: the years of the steps passed, and
    six more for each further round at the maximum step. *)
Lemma am_loop_beginn datum fuel : forall s t ns s' t' B,
  year t = B + jahre_bis s ->
  nächsterAufstieg s t = Returns ns ->
  am_loop fuel datum s t ns = Returns (s', t') ->
  exists j : nat,
    year t' = B + jahre_bis s' + 6 * Z.of_nat j /\ (s' <> sechs -> j = 0%nat).
Proof.
  induction fuel as [|fuel IH]; intros s t ns s' t' B Ht Hns Hrun.
  - simpl in Hrun. destruct (date_le ns datum); [discriminate|].
    inversion Hrun; subst. exists 0%nat. split; [lia|auto].
  - destruct (date_le ns datum) eqn:E.
    + rewrite am_loop_step in Hrun by assumption.
      destruct (nächsterAufstieg (Stufe_succ s) ns) as [ns'| |] eqn:Hns';
        unfold_bind; try discriminate.
      pose proof (nächsterAufstieg_Returns _ _ _ Hns) as (Ens & _).
      assert (Hy : year ns = year t + jahre s) by (rewrite Ens; reflexivity).
      destruct (decide (s = sechs)) as [->|Hs].
      * assert (Hy6 : year ns = B + 6 + jahre_bis sechs).
        { rewrite Hy, Ht. change (jahre sechs) with 6. lia. }
        destruct (IH sechs ns ns' s' t' (B + 6) Hy6 Hns' Hrun) as (j & Hj & _).
        exists (S j). split; [lia|]. intros Hne. exfalso. apply Hne.
        apply am_loop_steps in Hrun as [k ->]. apply iter_succ_sechs.
      * refine (IH (Stufe_succ s) ns ns' s' t' B _ Hns' Hrun).
        rewrite Hy, Ht, (jahre_bis_succ s Hs). lia.
    + rewrite am_loop_exit in Hrun by assumption.
      inversion Hrun; subst. exists 0%nat. split; [lia|auto].
Qed.

(** X19: the [beginn] of a changed position is the day its step was
    reached: the old [beginn] moved on by the intervals of the steps
    passed.  At the maximum step it is that day moved on by a further
    multiple of six years, since the loop goes on counting there. *)
Theorem X19_am_beginn_by_years p d r :
  am p d = Returns r ->
  r <> p ->
  exists j : nat,
    year (beginn r)
      = year (beginn p) + (jahre_bis (stufe (gus r)) - jahre_bis (stufe (gus p)))
        + 6 * Z.of_nat j /\
    (stufe (gus r) <> sechs -> j = 0%nat).
Proof.
  intros H Hne.
  apply am_Returns in H as (ns & s' & t' & Hns & Hl & Hr).
  specialize (Hl _ (Nat.le_refl _)).
  destruct (decide (s' = stufe (gus p))) as [E|E]; subst r; [contradiction|].
  cbn [beginn gus stufe].
  assert (Hb : year (beginn p)
               = year (beginn p) - jahre_bis (stufe (gus p)) + jahre_bis (stufe (gus p)))
    by lia.
  destruct (am_loop_beginn d _ _ _ _ _ _ _ Hb Hns Hl) as (j & Hj & Hz).
  exists j. split; [lia|exact Hz].
Qed.

Lemma X19_am_beginn_by_years_witness :
  exists j : nat,
    year (mkDate 2030 4 1)
      = year (mkDate 2000 4 1) + (jahre_bis sechs - jahre_bis drei) + 6 * Z.of_nat j /\
    (sechs <> sechs -> j = 0%nat).
Proof.
  apply (X19_am_beginn_by_years (mkStelle (mkGuS E_10 drei) (mkDate 2000 4 1))
           (mkDate 2031 1 1) (mkStelle (mkGuS E_10 sechs) (mkDate 2030 4 1)));
    [reflexivity|discriminate].
Defined.

(** ** [dec] *)

Lemma ndigits_bound x m :
  ndigits x <= m -> (x < 10 ^ Z.to_N m)%N.
Proof.
  intros H. destruct (N.eq_dec x 0%N) as [->|Hx].
  - apply N.neq_0_lt_0. apply N.pow_nonzero. lia.
  - destruct (ndigits_spec x ltac:(lia)) as (H1 & _ & H3).
    eapply N.lt_le_trans; [exact H3|].
    apply N.pow_le_mono_r; lia.
Qed.

Lemma fix_outcomes x :
  (exists d, fix_ x = Returns d /\ d_sign d = d_sign x) \/ fix_ x = Raises Overflow.
Proof.
  unfold fix_.
  repeat match goal with
         | |- context [if ?b then _ else _] => destruct b
         | |- context [let '(_, _) := ?p in _] => destruct p
         end; eauto.
Qed.

(** What [dec] returns: the rescaled number. *)
Lemma dec_Returns x d :
  dec x = Returns d ->
  d = rescale x (-2) ROUND_HALF_UP /\ (d_int d < 10 ^ 28)%N.
Proof.
  unfold dec, quantize. cbn [d_int d_exp d_sign].
  change (negb ((Etiny <=? -2) && (-2 <=? Emax))) with false. cbv iota.
  destruct (N.eqb_spec (d_int x) 0) as [E0|E0].
  - intros H. vm_compute in H. inversion H; subst d.
    unfold rescale. rewrite E0. simpl. split; [reflexivity|lia].
  - destruct (Emax <? adjusted x); [discriminate|].
    destruct (prec <? adjusted x - -2 + 1); [discriminate|].
    set (ans := rescale x (-2) ROUND_HALF_UP).
    destruct (Emax <? adjusted ans); [discriminate|].
    destruct (Z.ltb_spec prec (ndigits (d_int ans))) as [|Hd]; [discriminate|].
    assert (Hexp : d_exp ans = -2).
    { unfold ans, rescale.
      repeat match goal with |- context [if ?b then _ else _] => destruct b end;
        reflexivity. }
    assert (Hlt : (d_int ans < 10 ^ 28)%N) by (apply (ndigits_bound _ 28); exact Hd).
    destruct ans as [s c e]. simpl in *. subst e.
    rewrite fix_cents by exact Hlt. intros H. inversion H; subst d. auto.
Qed.

Lemma pow10_split (k : N) : (0 < k)%N -> (10 ^ k = 2 * (5 * 10 ^ (k - 1)))%N.
Proof.
  intros H. replace k with (N.succ (k - 1)) at 1 by lia.
  rewrite N.pow_succ_r'. lia.
Qed.

(** The result of [dec], by cases on the exponent of the argument. *)
Lemma dec_Returns_spec x d :
  dec x = Returns d ->
  d_exp d = -2 /\ d_sign d = d_sign x /\ (d_int d < 10 ^ 28)%N /\
  (-2 <= d_exp x -> d_int d = (d_int x * 10 ^ Z.to_N (d_exp x + 2))%N) /\
  (d_exp x < -2 ->
     let K := (10 ^ Z.to_N (-2 - d_exp x))%N in
     (2 * (d_int d * K) <= 2 * d_int x + K)%N /\
     (2 * d_int x < 2 * (d_int d * K) + K)%N /\
     (2 * (d_int x mod K) = K -> d_int d = d_int x / K + 1)%N).
Proof.
  intros H. apply dec_Returns in H as [-> Hlt].
  revert Hlt. unfold rescale.
  destruct (N.eqb_spec (d_int x) 0) as [E0|E0]; cbn [d_int d_exp d_sign]; intros Hlt.
  - rewrite E0.
    assert (HK : (0 < 10 ^ Z.to_N (-2 - d_exp x))%N)
      by (apply N.neq_0_lt_0, N.pow_nonzero; lia).
    split; [reflexivity|]. split; [reflexivity|]. split; [lia|].
    split; [lia|]. intros _. cbv zeta.
    rewrite N.Div0.mod_0_l. repeat split; lia.
  - destruct (Z.leb_spec (-2) (d_exp x)) as [Hge|Hlo]; cbn [d_int d_exp d_sign] in *.
    + repeat split; lia.
    + split; [reflexivity|]. split; [reflexivity|]. split; [exact Hlt|].
      split; [lia|]. intros _. cbv zeta.
      set (k := Z.to_N (-2 - d_exp x)) in *.
      pose proof (pow10_split k ltac:(lia)) as HK.
      unfold rounds_up.
      set (K := (10 ^ k)%N) in *. set (h := (5 * 10 ^ (k - 1))%N) in *.
      pose proof (N.Div0.div_mod (d_int x) K) as Hdm.
      assert (Hr : (d_int x mod K < K)%N) by (apply N.mod_lt; lia).
      set (q := (d_int x / K)%N) in *. set (r := (d_int x mod K)%N) in *.
      clearbody q r K h.
      destruct (N.leb_spec h r) as [Hup|Hdown].
      * split; [nia|]. split; [nia|]. intros _. reflexivity.
      * split; [nia|]. split; [nia|]. intros Ht. lia.
Qed.

(** X8: [dec] on a finite number (the [Decimal] of this development:
    not NaN, not an infinity).  What it returns has exactly two places
    (exponent -2), the sign of its argument and at most 28 digits.  A
    number with at most two places is only padded with zeros; otherwise
    the result is within half a cent of the argument, and a number exactly
    half-way between two cents goes to the one of larger magnitude. *)
Theorem X8_dec_half_up x d :
  dec x = Returns d ->
  d_exp d = -2 /\ d_sign d = d_sign x /\ (d_int d < 10 ^ 28)%N /\
  (-2 <= d_exp x -> d_int d = (d_int x * 10 ^ Z.to_N (d_exp x + 2))%N) /\
  (d_exp x < -2 ->
     let K := (10 ^ Z.to_N (-2 - d_exp x))%N in
     (2 * (d_int d * K) <= 2 * d_int x + K)%N /\
     (2 * d_int x < 2 * (d_int d * K) + K)%N /\
     (2 * (d_int x mod K) = K -> d_int d = d_int x / K + 1)%N).
Proof. exact (dec_Returns_spec x d). Qed.

Lemma X8_dec_half_up_witness :
  d_exp (mkDecimal false 123 (-2)) = -2 /\
  dec (mkDecimal false 1225 (-3)) = Returns (mkDecimal false 123 (-2)).
Proof.
  split; [|reflexivity].
  destruct (X8_dec_half_up (mkDecimal false 1225 (-3)) (mkDecimal false 123 (-2)))
    as (H & _); [reflexivity|exact H].
Defined.

(** X9: [dec] is idempotent: applied to one of its own results it
    returns that result unchanged. *)
Theorem X9_dec_idempotent x d :
  dec x = Returns d -> dec d = Returns d.
Proof.
  intros H. apply dec_Returns in H as [E Hlt].
  assert (Hexp : d_exp d = -2).
  { rewrite E. unfold rescale.
    repeat match goal with |- context [if ?b then _ else _] => destruct b end;
      reflexivity. }
  clear E. destruct d as [s c e]. simpl in *. subst e.
  unfold dec, quantize. cbn [d_int d_exp d_sign].
  change (negb ((Etiny <=? -2) && (-2 <=? Emax))) with false. cbv iota.
  destruct (N.eqb_spec c 0) as [->|Hc]; [reflexivity|].
  assert (Hd : 1 <= ndigits c <= 28).
  { split; [apply ndigits_spec; lia|apply ndigits_le; [lia|exact Hlt|lia]]. }
  unfold adjusted, rescale. cbn [d_int d_exp d_sign].
  destruct (N.eqb_spec c 0) as [->|_]; [lia|].
  destruct (Z.ltb_spec Emax (-2 + ndigits c - 1)); [unfold Emax in *; lia|].
  destruct (Z.ltb_spec prec (-2 + ndigits c - 1 - -2 + 1)); [unfold prec in *; lia|].
  change (-2 <=? -2) with true. cbv iota. cbn [d_int d_exp d_sign].
  change (Z.to_N (-2 - -2)) with 0%N. rewrite N.pow_0_r, N.mul_1_r.
  destruct (Z.ltb_spec Emax (-2 + ndigits c - 1)); [unfold Emax in *; lia|].
  destruct (Z.ltb_spec prec (ndigits c)); [unfold prec in *; lia|].
  apply fix_cents. exact Hlt.
Qed.

Lemma X9_dec_idempotent_witness :
  dec (mkDecimal true 1605 (-2)) = Returns (mkDecimal true 1605 (-2)).
Proof.
  apply (X9_dec_idempotent (mkDecimal true 16045 (-3))). reflexivity.
Defined.

Lemma rescale_exp x e r : d_exp (rescale x e r) = e.
Proof.
  unfold rescale.
  repeat match goal with |- context [if ?b then _ else _] => destruct b end;
    reflexivity.
Qed.

Lemma fix_cents_digits s c :
  ndigits c <= prec -> fix_ (mkDecimal s c (-2)) = Returns (mkDecimal s c (-2)).
Proof. intros H. apply fix_cents. apply (ndigits_bound c 28). exact H. Qed.

Lemma ndigits_lt_pow x m :
  0 <= m -> (x < 10 ^ Z.to_N m)%N -> ndigits x <= Z.max 1 m.
Proof.
  intros Hm Hx. destruct (N.eq_dec x 0%N) as [->|Hne].
  - rewrite ndigits_0. lia.
  - pose proof (ndigits_le x m Hm Hx ltac:(lia)). lia.
Qed.

Lemma rescale_sign x e r : d_sign (rescale x e r) = d_sign x.
Proof.
  unfold rescale.
  repeat match goal with |- context [if ?b then _ else _] => destruct b end;
    reflexivity.
Qed.

(** [dec] returns or raises [InvalidOperation]. *)
Lemma dec_outcomes x :
  (exists d, dec x = Returns d) \/ dec x = Raises InvalidOperation.
Proof.
  unfold dec, quantize. cbn [d_int d_exp d_sign].
  change (negb ((Etiny <=? -2) && (-2 <=? Emax))) with false. cbv iota.
  destruct (N.eqb_spec (d_int x) 0) as [E0|E0].
  { left. eexists. reflexivity. }
  set (ans := rescale x (-2) ROUND_HALF_UP).
  assert (He : d_exp ans = -2) by apply rescale_exp.
  destruct (Emax <? adjusted x); [auto|].
  destruct (prec <? adjusted x - -2 + 1); [auto|].
  destruct (Emax <? adjusted ans); [auto|].
  destruct (Z.ltb_spec prec (ndigits (d_int ans))) as [|Hd]; [auto|].
  left. destruct ans as [s c e]. simpl in *. subst e.
  rewrite fix_cents_digits by exact Hd. eauto.
Qed.

(** X10: the domain of [dec].  It returns for zero and for every number
    of magnitude below 10^25; it raises [InvalidOperation] for every
    nonzero number of magnitude 10^26 or more (the result would need more
    than 28 digits); and it never raises anything else. *)
Theorem X10_dec_domain x :
  (d_int x = 0%N \/ adjusted x <= 24 -> exists d, dec x = Returns d) /\
  (d_int x <> 0%N -> 26 <= adjusted x -> dec x = Raises InvalidOperation) /\
  ((exists d, dec x = Returns d) \/ dec x = Raises InvalidOperation).
Proof.
  split; [|split; [|apply dec_outcomes]];
    unfold dec, quantize; cbn [d_int d_exp d_sign];
    change (negb ((Etiny <=? -2) && (-2 <=? Emax))) with false; cbv iota.
  - intros Hx. destruct (N.eqb_spec (d_int x) 0) as [E0|E0].
    { eexists. reflexivity. }
    destruct Hx as [?|Hadj]; [contradiction|].
    set (ans := rescale x (-2) ROUND_HALF_UP).
    assert (He : d_exp ans = -2) by apply rescale_exp.
    destruct (Z.ltb_spec Emax (adjusted x)); [unfold Emax in *; lia|].
    destruct (Z.ltb_spec prec (adjusted x - -2 + 1)); [unfold prec in *; lia|].
    assert (Hd : ndigits (d_int ans) <= 28).
    { unfold adjusted in Hadj.
      destruct (ndigits_spec (d_int x) ltac:(lia)) as (Hn1 & _ & Hhi).
      set (n := ndigits (d_int x)) in *.
      unfold ans, rescale.
      destruct (N.eqb_spec (d_int x) 0) as [?|_]; [contradiction|].
      destruct (Z.leb_spec (-2) (d_exp x)) as [Hge|Hlo]; cbn [d_int].
      - change 28 with (Z.max 1 28). apply ndigits_lt_pow; [lia|].
        eapply N.lt_le_trans.
        + apply N.mul_lt_mono_pos_r; [|exact Hhi].
          apply N.neq_0_lt_0, N.pow_nonzero. lia.
        + rewrite <- N.pow_add_r. apply N.pow_le_mono_r; lia.
      - set (k := Z.to_N (-2 - d_exp x)).
        assert (Hq : (d_int x / 10 ^ k < 10 ^ 27)%N).
        { apply N.Div0.div_lt_upper_bound.
          eapply N.lt_le_trans; [exact Hhi|].
          rewrite N.mul_comm, <- N.pow_add_r. apply N.pow_le_mono_r; lia. }
        change 28 with (Z.max 1 28). apply ndigits_lt_pow; [lia|].
        change (Z.to_N 28) with 28%N.
        assert (10 ^ 27 < 10 ^ 28)%N by (apply N.pow_lt_mono_r; lia).
        destruct (rounds_up ROUND_HALF_UP (d_int x) k); lia. }
    destruct (Z.ltb_spec Emax (adjusted ans)) as [Hc|_].
    { unfold adjusted in Hc. rewrite He in Hc. unfold Emax in Hc. lia. }
    destruct (Z.ltb_spec prec (ndigits (d_int ans))); [unfold prec in *; lia|].
    destruct ans as [s c e]. simpl in *. subst e.
    rewrite fix_cents_digits by (unfold prec; lia). eauto.
  - intros E0 Hadj. destruct (N.eqb_spec (d_int x) 0) as [?|_]; [contradiction|].
    destruct (Emax <? adjusted x); [reflexivity|].
    destruct (Z.ltb_spec prec (adjusted x - -2 + 1)); [reflexivity|].
    unfold prec in *. lia.
Qed.

Lemma X10_dec_domain_witness :
  (exists d, dec (mkDecimal false 9999999999999999999999999 0) = Returns d) /\
  dec (mkDecimal true 1 26) = Raises InvalidOperation.
Proof.
  split.
  - destruct (X10_dec_domain (mkDecimal false 9999999999999999999999999 0))
      as (H & _).
    apply H. right. vm_compute. discriminate.
  - destruct (X10_dec_domain (mkDecimal true 1 26)) as (_ & H & _).
    apply H; [discriminate|vm_compute; discriminate].
Defined.

(** ** The ledger *)

Lemma summeMonatlich_outcomes self jahr gus gehalt :
  gehälter self !! (jahr, gus) = Some gehalt ->
  (exists d, summeMonatlich self jahr gus = Returns d) \/
  summeMonatlich self jahr gus = Raises InvalidOperation \/
  summeMonatlich self jahr gus = Raises Overflow.
Proof.
  intros Hg. rewrite (summeMonatlich_brutto _ _ _ _ Hg). unfold Decimal_mul.
  destruct (fix_outcomes (mkDecimal (xorb (d_sign (brutto gehalt)) (d_sign (zuschlag self)))
                            (d_int (brutto gehalt) * d_int (zuschlag self))
                            (d_exp (brutto gehalt) + d_exp (zuschlag self))))
    as [(p & -> & _) | ->]; unfold_bind; [|auto].
  destruct (dec_outcomes p) as [[d ->] | ->]; eauto.
Qed.

(** X11: a query for a key without an entry raises [KeyError] with that
    key, from [summeMonatlich] and from [sonderzahlung] alike, and a
    [KeyError] means nothing else: with an entry, [sonderzahlung] returns
    and [summeMonatlich] returns or raises an arithmetic error.  A fresh
    ledger answers every query with [KeyError]. *)
Theorem X11_queries_missing_key self jahr gus :
  (gehälter self !! (jahr, gus) = None <->
   summeMonatlich self jahr gus = Raises (KeyError (jahr, gus))) /\
  (gehälter self !! (jahr, gus) = None <->
   ÖtvKosten_sonderzahlung self jahr gus = Raises (KeyError (jahr, gus))) /\
  (forall key, summeMonatlich self jahr gus = Raises (KeyError key) -> key = (jahr, gus)) /\
  summeMonatlich ÖtvKosten_init jahr gus = Raises (KeyError (jahr, gus)) /\
  ÖtvKosten_sonderzahlung ÖtvKosten_init jahr gus = Raises (KeyError (jahr, gus)).
Proof.
  assert (Hs : forall key, summeMonatlich self jahr gus = Raises (KeyError key) ->
                 gehälter self !! (jahr, gus) = None /\ key = (jahr, gus)).
  { intros key H. destruct (gehälter self !! (jahr, gus)) as [g|] eqn:Hg.
    - destruct (summeMonatlich_outcomes _ _ _ _ Hg) as [[d E] | [E | E]];
        rewrite E in H; discriminate.
    - unfold summeMonatlich in H. rewrite Hg in H. inversion H. auto. }
  split; [|split; [|split; [|split]]].
  - split; [intros H; unfold summeMonatlich; rewrite H; reflexivity|].
    intros H. apply (Hs _ H).
  - unfold ÖtvKosten_sonderzahlung.
    destruct (gehälter self !! (jahr, gus)); split; intros H;
      try discriminate; reflexivity.
  - intros key H. apply (Hs _ H).
  - reflexivity.
  - reflexivity.
Qed.

Lemma X11_queries_missing_key_witness :
  summeMonatlich (snd (mitGehalt ÖtvKosten_init 2019 (mkGuS E_10 eins)
                         (mkGehalt (mkDecimal false 300000 (-2)) (mkDecimal false 0 (-2)))))
    2020 (mkGuS E_10 eins)
  = Raises (KeyError (2020, mkGuS E_10 eins)).
Proof.
  destruct (X11_queries_missing_key
              (snd (mitGehalt ÖtvKosten_init 2019 (mkGuS E_10 eins)
                      (mkGehalt (mkDecimal false 300000 (-2)) (mkDecimal false 0 (-2)))))
              2020 (mkGuS E_10 eins)) as ((H & _) & _).
  apply H. reflexivity.
Defined.

(** X12: storing and reading back.  After [mitGehalt] has stored a
    salary under a free key, [sonderzahlung] returns its annual bonus
    unchanged for that key; after a refused call it still returns the
    bonus stored before; and whatever the call did, both queries for
    every other key answer as they did before it. *)
Theorem X12_mitGehalt_then_query self jahr gus gehalt :
  let self' := snd (mitGehalt self jahr gus gehalt) in
  (gehälter self !! (jahr, gus) = None ->
     ÖtvKosten_sonderzahlung self' jahr gus = Returns (sonderzahlung gehalt)) /\
  (forall ist, gehälter self !! (jahr, gus) = Some ist ->
     ÖtvKosten_sonderzahlung self' jahr gus = Returns (sonderzahlung ist) /\
     summeMonatlich self' jahr gus = summeMonatlich self jahr gus) /\
  (forall j g, (j, g) <> (jahr, gus) ->
     ÖtvKosten_sonderzahlung self' j g = ÖtvKosten_sonderzahlung self j g /\
     summeMonatlich self' j g = summeMonatlich self j g).
Proof.
  cbv zeta. unfold mitGehalt.
  destruct (gehälter self !! (jahr, gus)) as [ist|] eqn:Hg; simpl.
  - split; [discriminate|]. split.
    + intros ist' [= <-]. unfold ÖtvKosten_sonderzahlung. rewrite Hg. auto.
    + auto.
  - split.
    + intros _. unfold ÖtvKosten_sonderzahlung. simpl.
      rewrite lookup_insert_eq. reflexivity.
    + split; [discriminate|]. intros j g Hne.
      unfold ÖtvKosten_sonderzahlung, summeMonatlich. simpl.
      rewrite lookup_insert_ne by congruence. auto.
Qed.

Lemma X12_mitGehalt_then_query_witness :
  ÖtvKosten_sonderzahlung
    (snd (mitGehalt ÖtvKosten_init 2019 (mkGuS E_13 zwei)
            (mkGehalt (mkDecimal false 400000 (-2)) (mkDecimal false 123456 (-2)))))
    2019 (mkGuS E_13 zwei)
  = Returns (mkDecimal false 123456 (-2)).
Proof.
  destruct (X12_mitGehalt_then_query ÖtvKosten_init 2019 (mkGuS E_13 zwei)
              (mkGehalt (mkDecimal false 400000 (-2)) (mkDecimal false 123456 (-2))))
    as (H & _).
  apply H. reflexivity.
Defined.

Lemma später_keeps self self' :
  später self self' ->
  zuschlag self' = zuschlag self /\
  (forall key ist, gehälter self !! key = Some ist -> gehälter self' !! key = Some ist).
Proof.
  induction 1 as [self|self self' jahr gus gehalt _ [IHz IHg]]; [auto|].
  split; [rewrite mitGehalt_zuschlag; exact IHz|].
  intros key ist Hk. specialize (IHg _ _ Hk).
  unfold mitGehalt. destruct (gehälter self' !! (jahr, gus)) as [x|] eqn:E; simpl.
  - exact IHg.
  - rewrite lookup_insert_ne; [exact IHg|]. intros <-. congruence.
Qed.

(** X13: the ledger is write-once over time.  Through any number of
    later [mitGehalt] calls, returning or refused, [zuschlag] stays the
    same and every entry keeps its salary, so a monthly total or annual
    bonus that was returned once is returned again unchanged. *)
Theorem X13_answers_are_stable self self' :
  später self self' ->
  zuschlag self' = zuschlag self /\
  gehälter self ⊆ gehälter self' /\
  (forall jahr gus d,
     summeMonatlich self jahr gus = Returns d ->
     summeMonatlich self' jahr gus = Returns d) /\
  (forall jahr gus d,
     ÖtvKosten_sonderzahlung self jahr gus = Returns d ->
     ÖtvKosten_sonderzahlung self' jahr gus = Returns d).
Proof.
  intros H. destruct (später_keeps _ _ H) as [Hz Hg].
  split; [exact Hz|]. split; [|split].
  - apply map_subseteq_spec. exact Hg.
  - intros jahr gus d. unfold summeMonatlich.
    destruct (gehälter self !! (jahr, gus)) as [g|] eqn:E; [|discriminate].
    rewrite (Hg _ _ E), Hz. auto.
  - intros jahr gus d. unfold ÖtvKosten_sonderzahlung.
    destruct (gehälter self !! (jahr, gus)) as [g|] eqn:E; [|discriminate].
    rewrite (Hg _ _ E). auto.
Qed.

Lemma X13_answers_are_stable_witness :
  let g1 := mkGehalt (mkDecimal false 300000 (-2)) (mkDecimal false 100000 (-2)) in
  let g2 := mkGehalt (mkDecimal false 350000 (-2)) (mkDecimal false 110000 (-2)) in
  let a := snd (mitGehalt ÖtvKosten_init 2019 (mkGuS E_10 eins) g1) in
  let b := snd (mitGehalt (snd (mitGehalt a 2019 (mkGuS E_10 eins) g2))
                  2020 (mkGuS E_10 eins) g2) in
  summeMonatlich b 2019 (mkGuS E_10 eins) = Returns (mkDecimal false 390000 (-2)).
Proof.
  intros g1 g2 a b.
  destruct (X13_answers_are_stable a b) as (_ & _ & H & _).
  - apply später_mitGehalt, später_mitGehalt, später_null.
  - apply H. reflexivity.
Defined.

(** X14: the shape of a monthly total for an entry whose gross amount
    is a finite number (the [Decimal] of this development: not NaN, not an
    infinity).  In every ledger that arises from a fresh one, a monthly
    total that is returned for such an entry has exactly two places, at
    most 28 digits and the sign of the stored gross amount. *)
Theorem X14_summeMonatlich_shape self jahr gus d :
  später ÖtvKosten_init self ->
  summeMonatlich self jahr gus = Returns d ->
  exists gehalt,
    gehälter self !! (jahr, gus) = Some gehalt /\
    d_exp d = -2 /\ d_sign d = d_sign (brutto gehalt) /\ (d_int d < 10 ^ 28)%N.
Proof.
  intros Hs H. apply später_keeps in Hs as [Hz _].
  unfold summeMonatlich in H.
  destruct (gehälter self !! (jahr, gus)) as [g|] eqn:Hg; [|discriminate].
  exists g. split; [reflexivity|].
  unfold Decimal_mul in H.
  destruct (fix_outcomes (mkDecimal (xorb (d_sign (brutto g)) (d_sign (zuschlag self)))
                            (d_int (brutto g) * d_int (zuschlag self))
                            (d_exp (brutto g) + d_exp (zuschlag self))))
    as [(p & E & Hsign) | E]; rewrite E in H; unfold_bind; [|discriminate].
  apply dec_Returns in H as [-> Hlt].
  split; [apply rescale_exp|]. split; [|exact Hlt].
  rewrite rescale_sign, Hsign, Hz. simpl. apply xorb_false_r.
Qed.

Lemma X14_summeMonatlich_shape_witness :
  exists gehalt,
    gehälter (snd (mitGehalt ÖtvKosten_init 2019 (mkGuS E_10 eins)
                     (mkGehalt (mkDecimal true 1234005 (-3)) (mkDecimal false 0 (-2)))))
      !! (2019, mkGuS E_10 eins) = Some gehalt /\
    d_exp (mkDecimal true 160421 (-2)) = -2 /\
    d_sign (mkDecimal true 160421 (-2)) = d_sign (brutto gehalt) /\
    (d_int (mkDecimal true 160421 (-2)) < 10 ^ 28)%N.
Proof.
  apply (X14_summeMonatlich_shape _ 2019 (mkGuS E_10 eins)).
  - apply später_mitGehalt, später_null.
  - vm_compute. reflexivity.
Defined.

(** X18: for a stored gross amount with two places and magnitude below
    10^13, in every ledger that arises from a fresh one, the monthly total
    is the gross amount times 1.30 rounded half-up to cents:
    [(13 * c + 5) / 10] cents for a gross of [c] cents; the binary float
    behind [zuschlag] makes no difference in that range. *)
Theorem X18_summeMonatlich_exact_in_range self jahr gus gehalt s c :
  später ÖtvKosten_init self ->
  gehälter self !! (jahr, gus) = Some gehalt ->
  brutto gehalt = mkDecimal s c (-2) ->
  (c < 10 ^ 15)%N ->
  summeMonatlich self jahr gus = Returns (mkDecimal s ((13 * c + 5) / 10) (-2)) /\
  summeMonatlich_exakt self jahr gus = summeMonatlich self jahr gus.
Proof.
  intros Hs Hg Hb Hc. apply später_keeps in Hs as [Hz _].
  exact (summeMonatlich_exact_below_1e13 self jahr gus gehalt s c Hz Hg Hb Hc).
Qed.

Lemma X18_summeMonatlich_exact_in_range_witness :
  summeMonatlich
    (snd (mitGehalt ÖtvKosten_init 2021 (mkGuS E_13 drei)
            (mkGehalt (mkDecimal false 432115 (-2)) (mkDecimal false 0 (-2)))))
    2021 (mkGuS E_13 drei)
  = Returns (mkDecimal false 561750 (-2)).
Proof.
  destruct (X18_summeMonatlich_exact_in_range
              (snd (mitGehalt ÖtvKosten_init 2021 (mkGuS E_13 drei)
                      (mkGehalt (mkDecimal false 432115 (-2)) (mkDecimal false 0 (-2)))))
              2021 (mkGuS E_13 drei)
              (mkGehalt (mkDecimal false 432115 (-2)) (mkDecimal false 0 (-2)))
              false 432115) as (H & _).
  - apply später_mitGehalt, später_null.
  - reflexivity.
  - reflexivity.
  - reflexivity.
  - exact H.
Defined.

(** ** [dec] on floats and [Gehalt.by] *)

Lemma trailing_zeros_nonneg p : 0 <= trailing_zeros p.
Proof. induction p; simpl; lia. Qed.

Lemma trailing_zeros_divide p : Z.pos p mod 2 ^ trailing_zeros p = 0.
Proof.
  induction p as [p _|p IH|]; [apply Z.mod_1_r| |reflexivity].
  cbn [trailing_zeros]. pose proof (trailing_zeros_nonneg p).
  replace (1 + trailing_zeros p) with (Z.succ (trailing_zeros p)) by lia.
  rewrite Z.pow_succ_r by assumption.
  change (Z.pos p~0) with (2 * Z.pos p).
  rewrite Z.mul_mod_distr_l; [lia | | lia].
  apply Z.pow_nonzero; lia.
Qed.

Lemma pow2_divide m t :
  0 <= t <= trailing_zeros m -> Z.pos m = 2 ^ t * (Z.pos m / 2 ^ t).
Proof.
  intros Ht.
  pose proof (trailing_zeros_divide m) as Hd.
  apply Z.mod_divide in Hd; [|apply Z.pow_nonzero; lia].
  destruct Hd as [c Hc].
  assert (E : 2 ^ trailing_zeros m = 2 ^ (trailing_zeros m - t) * 2 ^ t).
  { rewrite <- Z.pow_add_r by lia. f_equal. lia. }
  assert (H2 : 0 < 2 ^ t) by (apply Z.pow_pos_nonneg; lia).
  rewrite Hc, E.
  replace (c * (2 ^ (trailing_zeros m - t) * 2 ^ t))
    with (c * 2 ^ (trailing_zeros m - t) * 2 ^ t) by ring.
  rewrite Z.div_mul by lia. ring.
Qed.

(** [Decimal(f)] is exact: the decimal has the value [m * 2^e] of the
    float. *)
Lemma Decimal_from_float_exact s m e :
  let d := Decimal_from_float (S754_finite s m e) in
  d_sign d = s /\ d_exp d <= 0 /\
  Z.of_N (d_int d) * 2 ^ Z.max 0 (- e)
    = Z.pos m * 2 ^ Z.max 0 e * 10 ^ (- d_exp d).
Proof.
  cbv zeta. unfold Decimal_from_float.
  destruct (Z.leb_spec 0 e) as [He|He]; cbn [d_sign d_int d_exp].
  - split; [reflexivity|]. split; [lia|].
    assert (0 < 2 ^ e) by (apply Z.pow_pos_nonneg; lia).
    rewrite Z2N.id by lia.
    rewrite Z.max_l, Z.max_r by lia. simpl. lia.
  - pose proof (trailing_zeros_nonneg m) as Htz.
    set (t := Z.min (trailing_zeros m) (- e)).
    assert (Ht : 0 <= t <= trailing_zeros m) by lia.
    pose proof (pow2_divide m t Ht) as Hm.
    set (n := Z.pos m / 2 ^ t) in *.
    set (k := - e - t).
    assert (Hk : 0 <= k) by lia.
    assert (H2t : 0 < 2 ^ t) by (apply Z.pow_pos_nonneg; lia).
    assert (Hn : 0 <= n) by nia.
    assert (H5 : 0 < 5 ^ k) by (apply Z.pow_pos_nonneg; lia).
    split; [reflexivity|]. split; [lia|].
    rewrite Z2N.id by nia.
    rewrite Z.max_r, Z.max_l by lia. rewrite Z.opp_involutive.
    replace (- e) with (k + t) by lia.
    rewrite Z.pow_add_r by lia.
    change 10 with (2 * 5). rewrite Z.pow_mul_l.
    rewrite Hm. simpl (2 ^ 0). ring.
Qed.

(** X17: [dec] applied to a float gives the float rounded to the nearest
    cent.  For a finite float [m * 2^e] the result has exactly two places
    and the float's sign, and it differs from the float's exact value by
    at most half a cent; a zero gives a zero with two places.  So do both
    amounts of a salary made by [Gehalt.by], which raises nothing but
    [InvalidOperation]. *)
Theorem X17_Gehalt_by_nearest_cent b s :
  float_finite b = true -> float_finite s = true ->
  (forall d, dec_float b = Returns d -> auf_cent_gerundet b d) /\
  (forall g, Gehalt_by b s = Returns g ->
     auf_cent_gerundet b (brutto g) /\ auf_cent_gerundet s (sonderzahlung g)) /\
  ((exists g, Gehalt_by b s = Returns g) \/ Gehalt_by b s = Raises InvalidOperation).
Proof.
  assert (Hdec : forall f d, float_finite f = true ->
                   dec_float f = Returns d -> auf_cent_gerundet f d).
  { intros f d Hf H. unfold dec_float in H.
    destruct f as [sg| | |sg m e]; try discriminate; simpl.
    - vm_compute in H. destruct sg; inversion H; reflexivity.
    - destruct (dec_Returns_spec _ _ H) as (He & Hs & _ & Hpad & Hround).
      destruct (Decimal_from_float_exact sg m e) as (Hsg & Hle & Hex).
      set (x := Decimal_from_float (S754_finite sg m e)) in *.
      split; [exact He|]. split; [congruence|].
      set (X := 2 ^ Z.max 0 (- e)) in *. set (Y := Z.pos m * 2 ^ Z.max 0 e) in *.
      assert (HX : 0 < X) by (apply Z.pow_pos_nonneg; lia).
      destruct (Z.le_gt_cases (-2) (d_exp x)) as [Hge|Hlt].
      + specialize (Hpad Hge). rewrite Hpad, N2Z.inj_mul, N2Z.inj_pow.
        rewrite Z2N.id by lia. change (Z.of_N 10) with 10.
        assert (E10 : 10 ^ (d_exp x + 2) * 10 ^ (- d_exp x) = 100).
        { rewrite <- Z.pow_add_r by lia. replace (d_exp x + 2 + - d_exp x) with 2 by lia.
          reflexivity. }
        assert (Hp : 0 < 10 ^ (- d_exp x)) by (apply Z.pow_pos_nonneg; lia).
        set (P := 10 ^ (d_exp x + 2)) in *. set (Q := 10 ^ (- d_exp x)) in *.
        set (D := Z.of_N (d_int x)) in *.
        clearbody P Q D X Y.
        assert (E' : D * P * X = 100 * Y).
        { replace (D * P * X) with (P * (D * X)) by ring.
          rewrite Hex, <- E10. ring. }
        apply Z.abs_le. nia.
      + destruct (Hround Hlt) as (A & B & _).
        set (k := Z.to_N (-2 - d_exp x)) in *.
        assert (EK : 10 ^ (- d_exp x) = 100 * Z.of_N (10 ^ k)).
        { rewrite N2Z.inj_pow. unfold k. rewrite Z2N.id by lia.
          change 100 with (10 ^ 2). rewrite <- Z.pow_add_r by lia. f_equal. lia. }
        assert (HK : (0 < 10 ^ k)%N) by (apply N.neq_0_lt_0, N.pow_nonzero; lia).
        rewrite EK in Hex.
        set (K := (10 ^ k)%N) in *. clearbody K X Y.
        set (D := d_int x) in *. set (c := d_int d) in *. clearbody D c.
        apply Z.abs_le. split.
        * apply (Z.mul_le_mono_pos_l _ _ (Z.of_N K)); [lia|]. nia.
        * apply (Z.mul_le_mono_pos_l _ _ (Z.of_N K)); [lia|]. nia. }
  intros Hb Hs. split; [intros d; apply Hdec; exact Hb|]. split.
  - intros g H. unfold Gehalt_by in H.
    destruct (dec_float b) as [db| |] eqn:Eb; unfold_bind; try discriminate.
    destruct (dec_float s) as [ds| |] eqn:Es; try discriminate.
    inversion H; subst g. simpl. split; apply Hdec; assumption.
  - unfold Gehalt_by, dec_float.
    destruct (dec_outcomes (Decimal_from_float b)) as [[db ->] | ->];
      unfold_bind; [|auto].
    destruct (dec_outcomes (Decimal_from_float s)) as [[ds ->] | ->]; eauto.
Qed.

Lemma X17_Gehalt_by_nearest_cent_witness :
  auf_cent_gerundet float_0_3 (mkDecimal false 30 (-2)).
Proof.
  destruct (X17_Gehalt_by_nearest_cent float_0_3 float_1) as (H & _);
    [reflexivity | reflexivity |].
  apply H. reflexivity.
Defined.

(** ** [AllGuS] and [printAllGuS] *)

(** X15: [AllGuS] lists every combination of grade and step exactly
    once, in the order of [itertools.product(Entgeltgruppe, Stufe)], under
    pairwise different field names; each name is the grade's name without
    the underscore, an underscore and the step's value. *)
Theorem X15_AllGuS_complete :
  (forall g : GuS, exists name, (name, g) ∈ AllGuS) /\
  NoDup (snd <$> AllGuS) /\
  NoDup (fst <$> AllGuS) /\
  snd <$> AllGuS
    = (fun x => mkGuS (fst x) (snd x)) <$> product Entgeltgruppe_members Stufe_members /\
  (forall name g, (name, g) ∈ AllGuS ->
     name = remove_char "_" (Entgeltgruppe_name (gruppe g)) +:+ "_"
            +:+ pretty (value (stufe g))).
Proof.
  split; [|split; [|split; [|split]]].
  - intros [[] []]; eexists; unfold AllGuS;
      repeat (first [apply list_elem_of_here | apply list_elem_of_further]).
  - apply (bool_decide_unpack _). vm_compute. exact I.
  - apply (bool_decide_unpack _). vm_compute. exact I.
  - reflexivity.
  - intros name g H. unfold AllGuS in H.
    repeat (apply elem_of_cons in H as [H|H]; [inversion H; subst; reflexivity|]).
    apply elem_of_nil in H. contradiction.
Qed.

Lemma X15_AllGuS_complete_witness :
  "E13_5"%string
  = (remove_char "_" (Entgeltgruppe_name E_13) +:+ "_" +:+ pretty (value fünf)).
Proof.
  destruct X15_AllGuS_complete as (_ & _ & _ & _ & H).
  apply (H "E13_5"%string (mkGuS E_13 fünf)).
  unfold AllGuS. repeat (first [apply list_elem_of_here | apply list_elem_of_further]).
Defined.

(** X16: [printAllGuS] prints, line by line and in order, the
    declarations of the static fields of [AllGuS]: twelve lines, each
    binding a field name to [GuS(Entgeltgruppe.<grade>, Stufe.<step>)], so
    that the class body is what the function generates. *)
Theorem X16_printAllGuS_is_AllGuS :
  printAllGuS = AllGuS_zeile <$> AllGuS /\
  length printAllGuS = (length Entgeltgruppe_members * length Stufe_members)%nat /\
  NoDup printAllGuS.
Proof.
  split; [reflexivity|]. split; [reflexivity|].
  apply (bool_decide_unpack _). vm_compute. exact I.
Qed.
